(** * Logo extractor: a shallow embedding of [process_logo.py]

    The script loads an image as RGBA, recomputes the alpha channel from
    the colour magnitude of every pixel ("keying"), crops to the bounding
    box of the visible pixels, looks for a gap of nearly empty rows in the
    lower half to cut off a caption, crops again and saves the result.

    The development follows the script stage by stage:
    - [Keyer]: the float arithmetic of the alpha ramp, on IEEE binary64
      numbers (Rocq's primitive floats), with the 8-bit casts around it;
    - [Raster]: images as rows of pixels, PIL's [getbbox] and [crop];
    - [Splitter]: the row-coverage scan for the caption gap;
    - [Driver]: the [try]/[except] boundary around the whole run. *)

From Stdlib Require Import String.
From Stdlib Require Import Floats Uint63 Ring63.
From Stdlib Require Import ZArith List Lia Bool Arith PeanoNat.
From Stdlib Require Import Reals Lra Psatz R_Ifp.
Import ListNotations.

Set Implicit Arguments.

(** ** Pixels *)

(** One RGBA pixel of a [uint8] array: four channels, each in [0, 255]. *)
Record pixel : Type := mkPixel {
  red : Z;
  green : Z;
  blue : Z;
  alpha : Z
}.

Definition u8 (z : Z) : Prop := (0 <= z < 256)%Z.

Definition pixel_ok (p : pixel) : Prop :=
  u8 (red p) /\ u8 (green p) /\ u8 (blue p) /\ u8 (alpha p).

(** [r**2 + g**2 + b**2] over the integers. *)
Definition sq_sum (p : pixel) : Z :=
  (red p * red p + green p * green p + blue p * blue p)%Z.

(** The colour magnitude [sqrt(r^2+g^2+b^2)] as a real number. *)
Definition magnitude (p : pixel) : R := R_sqrt.sqrt (IZR (sq_sum p)).

(** ** The keyer (lines 14-32 of the script) *)

Module Keyer.

(** [np.array(img).astype(float)]: an 8-bit channel becomes a binary64. *)
Definition to_float (z : Z) : float := PrimFloat.of_uint63 (Uint63.of_Z z).

(** [astype(np.uint8)] on a binary64 holding a value of [0, 256): the C
    cast, which drops the fractional part. *)
Definition astype_uint8 (x : float) : Z :=
  match Prim2SF x with
  | S754_finite s m e =>
      let n := Z.shiftl (Zpos m) e in if s then (- n)%Z else n
  | _ => 0%Z
  end.

Definition lower : float := 20%float.
Definition upper : float := 60%float.

(** [np.clip(x, lo, hi)] is [minimum(maximum(x, lo), hi)]. *)
Definition np_maximum (x y : float) : float := if PrimFloat.ltb x y then y else x.
Definition np_minimum (x y : float) : float := if PrimFloat.ltb y x then y else x.
Definition np_clip (x lo hi : float) : float := np_minimum (np_maximum x lo) hi.

(** [dist = np.sqrt(r**2 + g**2 + b**2)] *)
Definition dist_of (sq : float) : float := PrimFloat.sqrt sq.

Definition sq_sum_float (r g b : float) : float := (r * r + g * g + b * b)%float.

(** [new_alpha = np.clip((dist - lower) / (upper - lower), 0, 1) * 255] *)
Definition new_alpha_of (sq : float) : float :=
  (np_clip ((dist_of sq - lower) / (upper - lower)) 0 1 * 255)%float.

Definition new_alpha (r g b : float) : float := new_alpha_of (sq_sum_float r g b).

(** One pixel through [astype(float)], the alpha overwrite
    [data[..., 3] = new_alpha] and [astype(np.uint8)]. *)
Definition key_pixel (p : pixel) : pixel :=
  let r := to_float (red p) in
  let g := to_float (green p) in
  let b := to_float (blue p) in
  mkPixel (astype_uint8 r) (astype_uint8 g) (astype_uint8 b)
          (astype_uint8 (new_alpha r g b)).

(** The alpha ramp in closed form over the integer [s = r^2+g^2+b^2]:
    [floor (255 * (sqrt s - 20) / 40)] is [(isqrt (51^2 * s) - 1020) / 8]. *)
Definition ramp (s : Z) : Z :=
  if (s <=? 400)%Z then 0%Z
  else if (3600 <=? s)%Z then 255%Z
  else ((Z.sqrt (2601 * s) - 1020) / 8)%Z.

(** *** Exhaustive checks over the 8-bit inputs *)

(** [all_from n i f]: [f] holds at the [n] machine integers from [i] on. *)
Fixpoint all_from (n : nat) (i : int) (f : int -> bool) : bool :=
  match n with
  | O => true
  | S k => f i && all_from k (i + 1)%uint63 f
  end.

Definition sum_exact (i j k : int) : bool :=
  PrimFloat.Leibniz.eqb
    (sq_sum_float (of_uint63 i) (of_uint63 j) (of_uint63 k))
    (of_uint63 (i * i + j * j + k * k)%uint63).

Definition ramp_agrees (n : int) : bool :=
  (astype_uint8 (new_alpha_of (of_uint63 n)) =? ramp (Uint63.to_Z n))%Z.

Definition cast_back (i : int) : bool :=
  (astype_uint8 (of_uint63 i) =? Uint63.to_Z i)%Z.

End Keyer.

(** ** Images, bounding boxes and crops *)

Module Raster.

(** An image is its width and its rows of pixels, top row first; a row
    holds its pixels left to right. *)
Record image : Type := mkImage {
  width : nat;
  rows : list (list pixel)
}.

Definition height (img : image) : nat := length (rows img).

(** Every row is [width] pixels long. *)
Definition image_ok (img : image) : Prop :=
  Forall (fun row => length row = width img) (rows img).

(** Every channel of every pixel is an 8-bit value. *)
Definition pixels_ok (img : image) : Prop :=
  Forall (Forall pixel_ok) (rows img).

(** The pixel in column [x] of row [y]. *)
Definition pixel_at (img : image) (x y : nat) : option pixel :=
  match nth_error (rows img) y with
  | Some row => nth_error row x
  | None => None
  end.

Section Scan.
Variable T : Type.
Variable f : T -> bool.

(** Index of the first element that satisfies [f]; the length of the
    list when there is none. *)
Fixpoint lead (l : list T) : nat :=
  match l with
  | [] => 0
  | x :: l' => if f x then 0 else S (lead l')
  end.

(** One past the index of the last element that satisfies [f]; zero
    when there is none. *)
Fixpoint trail (l : list T) : nat :=
  match l with
  | [] => 0
  | x :: l' =>
      match trail l' with
      | O => if f x then 1 else 0
      | S k => S (S k)
      end
  end.
End Scan.

(** A pixel counts for the bounding box when its alpha is not zero. *)
Definition visible (p : pixel) : bool := negb (alpha p =? 0)%Z.

Definition has_data (row : list pixel) : bool := existsb visible row.

(** A box [(left, upper, right, lower)]; right and lower are exclusive. *)
Definition box : Type := (nat * nat * nat * nat)%type.

(** The leftmost column and the column after the rightmost one that
    hold a counted pixel, over all rows. *)
Definition left_edge (img : image) : nat :=
  fold_right Nat.min (width img) (map (lead visible) (rows img)).

Definition right_edge (img : image) : nat :=
  fold_right Nat.max 0 (map (trail visible) (rows img)).

(** Modelled from the spec: [Image.getbbox] is a function of the PIL
    library, whose code is not part of the repository. For an RGBA image
    it gives the bounding box of the pixels with a non-zero alpha, and
    [None] when there is no such pixel. *)
Definition getbbox (img : image) : option box :=
  if existsb has_data (rows img) then
    Some (left_edge img, lead has_data (rows img),
          right_edge img, trail has_data (rows img))
  else None.

(** The columns [x0, x1) of one row. *)
Definition window (x0 x1 : nat) (row : list pixel) : list pixel :=
  firstn (x1 - x0) (skipn x0 row).

(** Modelled from the spec: [Image.crop] is a function of the PIL
    library as well. For a box that lies inside the image it gives the
    sub-image of the box: the rows [y0, y1), and of each the columns
    [x0, x1). *)
Definition crop (img : image) (b : box) : image :=
  let '(x0, y0, x1, y1) := b in
  mkImage (x1 - x0)
          (map (window x0 x1) (firstn (y1 - y0) (skipn y0 (rows img)))).

(** [bbox = img.getbbox()] followed by [if bbox: img = img.crop(bbox)];
    a 4-tuple is true in Python, [None] is false. *)
Definition crop_to_content (img : image) : image :=
  match getbbox img with
  | Some b => crop img b
  | None => img
  end.

(** The keyer applied to the whole array. *)
Definition key_image (img : image) : image :=
  mkImage (width img) (map (map Keyer.key_pixel) (rows img)).

End Raster.

(** ** The text-band splitter (lines 39-53) *)

Module Splitter.
Import Raster.

Local Open Scope Z_scope.

(** [np.sum(alpha_channel, axis=1)]: the sum of the alpha values of each
    row. numpy adds them in an unsigned machine word, and the sum of the
    five rows of a window in a word or a binary64; a row of an image PIL
    can hold (fewer than 2^31 columns of values below 256) makes none of
    them wrap or round, so the sums are taken in [Z]. *)
Definition row_sum (row : list pixel) : Z := fold_right Z.add 0 (map alpha row).

Definition row_sums (img : image) : list Z := map row_sum (rows img).

(** [range(lo, hi)] *)
Definition py_range (lo hi : Z) : list Z :=
  map (fun k => lo + Z.of_nat k) (seq 0 (Z.to_nat (hi - lo))).

(** [a[y]]: negative indices count from the end, and an index outside
    the array raises [IndexError] ([None] here). *)
Definition item (a : list Z) (y : Z) : option Z :=
  let n := Z.of_nat (length a) in
  if (0 <=? y) && (y <? n) then nth_error a (Z.to_nat y)
  else if (- n <=? y) && (y <? 0) then nth_error a (Z.to_nat (n + y))
  else None.

(** [a[lo:hi]] for [0 <= lo <= hi]: the bounds are clipped to the array. *)
Definition slice (a : list Z) (lo hi : Z) : list Z :=
  firstn (Z.to_nat (hi - lo)) (skipn (Z.to_nat lo) a).

(** The builtin [sum]: a left fold from 0. *)
Definition py_sum (a : list Z) : Z := fold_left Z.add a 0.

(** The test of one row in the loop body. *)
Definition is_gap (a : list Z) (y : Z) : option bool :=
  match item a y with
  | None => None
  | Some v => Some (if v <? 10 then py_sum (slice a y (y + 5)) <? 50 else false)
  end.

(** The [for] loop over the rows [ys] still to visit: the first gap row
    is the split point and ends the loop; without one the split point
    keeps its initial value. [None] is an [IndexError]. *)
Fixpoint scan (a : list Z) (ys : list Z) (split_point : Z) : option Z :=
  match ys with
  | [] => Some split_point
  | y :: ys' =>
      match is_gap a y with
      | None => None
      | Some true => Some y
      | Some false => scan a ys' split_point
      end
  end.

(** [int(height * 0.5)]: halving is exact in binary64 for any height an
    image can have, and [int] drops the fraction. *)
Definition scan_start (height : Z) : Z := height / 2.

Definition scan_range (height : Z) : list Z := py_range (scan_start height) (height - 5).

Definition split_point (a : list Z) : option Z :=
  let height := Z.of_nat (length a) in
  scan a (scan_range height) height.

(** The rows the loop visits: the range up to and including the row it
    stops at. *)
Fixpoint visited (a : list Z) (ys : list Z) : list Z :=
  match ys with
  | [] => []
  | y :: ys' =>
      match is_gap a y with
      | Some false => y :: visited a ys'
      | _ => [y]
      end
  end.

(** [new_img.crop((0, 0, new_img.width, split_point))] *)
Definition crop_rows (img : image) (sp : Z) : image :=
  crop img (0%nat, 0%nat, width img, Z.to_nat sp).

Definition split_crop (img : image) : option image :=
  match split_point (row_sums img) with
  | Some sp => Some (crop_rows img sp)
  | None => None
  end.

End Splitter.

(** ** The driver: one [try]/[except] around the whole run (lines 8-62) *)

Module Driver.
Import Raster Splitter.

(** The raw string of line 6: the path the logo is saved to. *)
Definition output_path : string :=
  "C:\Users\aitor\.gemini\antigravity\scratch\medical-notes-app\src\assets\logo.png".

(** A raised exception; [message] is the text [str(e)]. *)
Record exn : Type := Exn { message : string }.

(** What a run can change: the file at [output_path], if there is one,
    and the lines printed so far. *)
Record world : Type := mkWorld {
  output_file : option image;
  stdout : list string
}.

(** A computation changes the world and either returns a value or
    raises. *)
Definition M (A : Type) : Type := world -> world * (exn + A).

Definition ret {A : Type} (a : A) : M A := fun w => (w, inr a).

Definition raise {A : Type} (e : exn) : M A := fun w => (w, inl e).

Definition bind {A B : Type} (m : M A) (k : A -> M B) : M B :=
  fun w =>
    match m w with
    | (w', inl e) => (w', inl e)
    | (w', inr a) => k a w'
    end.

Notation "x <- m ;; k" := (bind m (fun x => k))
  (at level 61, m at next level, right associativity).

(** [try: body except Exception as e: handler e] *)
Definition try_except {A : Type} (body : M A) (handler : exn -> M A) : M A :=
  fun w =>
    match body w with
    | (w', inl e) => handler e w'
    | (w', inr a) => (w', inr a)
    end.

Definition print (line : string) : M unit :=
  fun w => (mkWorld (output_file w) (stdout w ++ [line]), inr tt).

(** The steps between loading and saving. *)
Inductive stage : Type := Keying | FirstCrop | Split | Truncate | SecondCrop.

(** What the run meets outside the script: the outcome of
    [Image.open(input_path).convert("RGBA")], an exception that a step
    may run into (memory, a library error), and the outcome of
    [final_logo.save(output_path, "PNG")]: the file it leaves at the
    path and the exception it raises, if any. *)
Record env : Type := mkEnv {
  load : exn + image;
  fault : stage -> option exn;
  save : image -> option image -> option image * option exn
}.

Definition load_image (e : env) : M image :=
  fun w => (w, load e).

Definition enter (e : env) (s : stage) : M unit :=
  match fault e s with
  | Some ex => raise ex
  | None => ret tt
  end.

Definition index_error : exn := Exn "index out of bounds".

Definition save_image (e : env) (img : image) : M unit :=
  fun w =>
    match save e img (output_file w) with
    | (file, Some ex) => (mkWorld file (stdout w), inl ex)
    | (file, None) => (mkWorld file (stdout w), inr tt)
    end.

(** Everything the [try] block does before [final_logo.save]. *)
Definition before_save (e : env) : M image :=
  img <- load_image e ;;
  _ <- enter e Keying ;;
  let new_img := key_image img in
  _ <- enter e FirstCrop ;;
  let new_img := crop_to_content new_img in
  _ <- enter e Split ;;
  sp <- match split_point (row_sums new_img) with
        | Some sp => ret sp
        | None => raise index_error
        end ;;
  _ <- enter e Truncate ;;
  let final_logo := crop_rows new_img sp in
  _ <- enter e SecondCrop ;;
  ret (crop_to_content final_logo).

(** [print(f"Processed high-res logo to {output_path}")] prints the
    text followed by the value of the path. *)
Definition try_block (e : env) : M unit :=
  final_logo <- before_save e ;;
  _ <- save_image e final_logo ;;
  print ("Processed high-res logo to " ++ output_path).

Definition process_logo_high_res (e : env) : M unit :=
  try_except (try_block e) (fun ex => print ("Error: " ++ message ex)).

End Driver.

(** ** The image that is saved *)

Module Pipeline.
Import Raster Splitter.

(** Lines 14-56 without the file operations: the image the [try] block
    hands to [save], from the image it loaded. [None] is an [IndexError]
    of the scan. *)
Definition extract (img : image) : option image :=
  let new_img := crop_to_content (key_image img) in
  match split_point (row_sums new_img) with
  | Some sp => Some (crop_to_content (crop_rows new_img sp))
  | None => None
  end.

End Pipeline.

(** * Notions used to state the properties *)

(** The spec's rounding of the ramp: to the nearest integer, halves up. *)
Definition round_half_up (x : R) : Z := Int_part (x + / 2).

(** Two colours used in the examples: pure red of magnitude 40 and of
    magnitude 22. *)
Definition red40 : pixel := mkPixel 40 0 0 255.
Definition red22 : pixel := mkPixel 22 0 0 255.

(** ** Sample images *)

Module Samples.
Import Raster.

(** A black pixel with the given alpha. *)
Definition ink (a : Z) : pixel := mkPixel 0 0 0 a.

(** Three by three, one visible pixel in the middle. *)
Definition dot : image :=
  mkImage 3 [[ink 0; ink 0; ink 0]; [ink 0; ink 9; ink 0]; [ink 0; ink 0; ink 0]].

(** Two by two, every colour of magnitude at most 20. *)
Definition dusk : image :=
  mkImage 2 [[mkPixel 3 4 0 255; mkPixel 0 0 0 255];
             [mkPixel 12 16 0 255; mkPixel 10 10 10 255]].

(** One column of twelve rows: six opaque rows, five empty rows and one
    more opaque row. *)
Definition banner : image :=
  mkImage 1 (map (fun a => [ink a]) [255; 255; 255; 255; 255; 255; 0; 0; 0; 0; 0; 255]%Z).

End Samples.

(** ** Boxes *)

Module BoxSpec.
Import Raster.

(** The image has a pixel at column [x] of row [y] whose alpha is not
    zero. *)
Definition visible_at (img : image) (x y : nat) : Prop :=
  exists p : pixel, pixel_at img x y = Some p /\ alpha p <> 0%Z.

Definition in_box (b : box) (x y : nat) : Prop :=
  let '(x0, y0, x1, y1) := b in x0 <= x < x1 /\ y0 <= y < y1.

(** The box holds every pixel with a non-zero alpha. *)
Definition encloses (img : image) (b : box) : Prop :=
  forall x y : nat, visible_at img x y -> in_box b x y.

(** The first box lies inside the second. *)
Definition box_within (b b' : box) : Prop :=
  let '(x0, y0, x1, y1) := b in
  let '(x0', y0', x1', y1') := b' in
  x0' <= x0 /\ y0' <= y0 /\ x1 <= x1' /\ y1 <= y1'.

(** The alpha channel alone. *)
Definition alpha_layer (img : image) : list (list Z) := map (map alpha) (rows img).

(** A non-zero alpha value. *)
Definition nonzero (a : Z) : bool := negb (a =? 0)%Z.

End BoxSpec.

(** ** Gaps *)

Module GapSpec.
Import Raster Splitter.
Local Open Scope Z_scope.

(** The coverage of row [y]: the sum of its alpha values. *)
Definition coverage (a : list Z) (y : Z) : Z := nth (Z.to_nat y) a 0.

(** Row [y] starts a gap: its own coverage is below 10 and the coverage
    of the five rows [y .. y+4] sums to less than 50. *)
Definition gap_at (a : list Z) (y : Z) : Prop :=
  coverage a y < 10 /\
  coverage a y + coverage a (y + 1) + coverage a (y + 2)
  + coverage a (y + 3) + coverage a (y + 4) < 50.

End GapSpec.

(** ** Alpha sums, pixel by pixel *)

Module AlphaSpec.
Import Raster.
Local Open Scope Z_scope.

(** The alpha of the pixel in column [x] of row [y]; zero where the
    image has no pixel. *)
Definition alpha_at (img : image) (x y : nat) : Z :=
  match pixel_at img x y with
  | Some p => alpha p
  | None => 0
  end.

(** The alpha values of row [y], added up over the columns of the
    image. *)
Definition row_alpha (img : image) (y : Z) : Z :=
  fold_right Z.add 0 (map (fun x => alpha_at img x (Z.to_nat y)) (seq 0 (width img))).

(** Row [y] starts a gap of the image: the alpha values of the row sum
    to less than 10, and those of the five rows [y .. y+4] together to
    less than 50. *)
Definition starts_gap (img : image) (y : Z) : Prop :=
  row_alpha img y < 10 /\
  row_alpha img y + row_alpha img (y + 1) + row_alpha img (y + 2)
  + row_alpha img (y + 3) + row_alpha img (y + 4) < 50.

End AlphaSpec.

(** ** Sub-images *)

Module SubImage.
Import Raster.

(** [out] is the rectangle of [src] whose upper left corner is at column
    [dx] of row [dy]. *)
Definition shows (out src : image) (dx dy : nat) : Prop :=
  dx + width out <= width src /\
  dy + height out <= height src /\
  forall x y : nat,
    x < width out -> y < height out ->
    pixel_at out x y = pixel_at src (dx + x) (dy + y).

(** No pixel has a non-zero alpha. *)
Definition blank (img : image) : Prop :=
  forall (x y : nat) (q : pixel), pixel_at img x y = Some q -> alpha q = 0%Z.

(** Every pixel is fully opaque. *)
Definition solid (img : image) : Prop :=
  forall (x y : nat) (q : pixel), pixel_at img x y = Some q -> alpha q = 255%Z.

End SubImage.

(** ** More sample images *)

Module MoreSamples.
Import Raster.

(** Three by three: a bright red pixel in the middle of black. *)
Definition badge : image :=
  mkImage 3 [[mkPixel 0 0 0 255; mkPixel 0 0 0 255; mkPixel 0 0 0 255];
             [mkPixel 0 0 0 255; mkPixel 200 0 0 255; mkPixel 0 0 0 255];
             [mkPixel 0 0 0 255; mkPixel 0 0 0 255; mkPixel 0 0 0 255]].

(** One column of twelve rows of a colour of magnitude 5. *)
Definition night : image := mkImage 1 (repeat [mkPixel 3 4 0 255] 12).

(** Two by two, every colour of magnitude above 60, the input alpha
    arbitrary. *)
Definition flag : image :=
  mkImage 2 [[mkPixel 200 0 0 0; mkPixel 0 200 0 255];
             [mkPixel 60 60 60 17; mkPixel 255 255 255 255]].

(** Two coverage profiles of twelve rows that differ in the upper half
    only. *)
Definition profile_a : list Z := [255; 255; 255; 255; 255; 255; 0; 0; 0; 0; 0; 255]%Z.
Definition profile_b : list Z := [0; 1; 2; 3; 4; 5; 0; 0; 0; 0; 0; 255]%Z.

End MoreSamples.

(** * Properties *)

(** ** The keyer *)

Section KeyerFacts.
Import Keyer.

Local Open Scope Z_scope.

Lemma of_Z_add (a b : Z) :
  Uint63.of_Z (a + b) = (Uint63.of_Z a + Uint63.of_Z b)%uint63.
Proof.
  apply Uint63.to_Z_inj.
  rewrite Uint63.add_spec, !Uint63.of_Z_spec.
  now rewrite <- Zplus_mod.
Qed.

Lemma of_Z_mul (a b : Z) :
  Uint63.of_Z (a * b) = (Uint63.of_Z a * Uint63.of_Z b)%uint63.
Proof.
  apply Uint63.to_Z_inj.
  rewrite Uint63.mul_spec, !Uint63.of_Z_spec.
  now rewrite <- Zmult_mod.
Qed.

Lemma to_Z_of_Z_small (z : Z) :
  0 <= z < 2 ^ 62 -> Uint63.to_Z (Uint63.of_Z z) = z.
Proof.
  intros Hz. rewrite Uint63.of_Z_spec.
  apply Z.mod_small. change wB with (2 ^ 63). lia.
Qed.

Lemma all_from_spec (f : int -> bool) (n : nat) :
  forall i : int,
    all_from n i f = true ->
    forall k : nat, (k < n)%nat -> f (i + Uint63.of_Z (Z.of_nat k))%uint63 = true.
Proof.
  induction n as [|n IH]; intros i Hall k Hk; [lia|].
  simpl in Hall. apply andb_true_iff in Hall as [Hi Hrest].
  destruct k as [|k].
  - replace (i + Uint63.of_Z (Z.of_nat 0))%uint63 with i; [exact Hi|].
    change (Uint63.of_Z (Z.of_nat 0)) with 0%uint63. ring.
  - specialize (IH _ Hrest k ltac:(lia)).
    replace (i + Uint63.of_Z (Z.of_nat (S k)))%uint63
      with (i + 1 + Uint63.of_Z (Z.of_nat k))%uint63; [exact IH|].
    rewrite Nat2Z.inj_succ, <- Z.add_1_l, of_Z_add.
    change (Uint63.of_Z 1) with 1%uint63. ring.
Qed.

Lemma all_from_0 (f : int -> bool) (n z : Z) :
  all_from (Z.to_nat n) 0%uint63 f = true ->
  0 <= z < n -> f (Uint63.of_Z z) = true.
Proof.
  intros Hall Hz.
  pose proof (@all_from_spec f _ 0%uint63 Hall (Z.to_nat z) ltac:(lia)) as H.
  rewrite Z2Nat.id in H by lia.
  replace (0 + Uint63.of_Z z)%uint63 with (Uint63.of_Z z) in H by ring.
  exact H.
Qed.

(** The three squares and their sum are computed without rounding, for
    all 2^24 colours. *)
Lemma sum_exact_all :
  all_from (Z.to_nat 256) 0%uint63 (fun i =>
    all_from (Z.to_nat 256) 0%uint63 (fun j =>
      all_from (Z.to_nat 256) 0%uint63 (fun k => sum_exact i j k))) = true.
Proof. vm_cast_no_check (eq_refl true). Qed.

(** The float ramp and the integer ramp agree on every sum of squares
    three 8-bit channels can give (at most 3 * 255^2 = 195075). *)
Lemma ramp_agrees_all : all_from (Z.to_nat 195076) 0%uint63 ramp_agrees = true.
Proof. vm_cast_no_check (eq_refl true). Qed.

Lemma cast_back_all : all_from (Z.to_nat 256) 0%uint63 cast_back = true.
Proof. vm_cast_no_check (eq_refl true). Qed.

Lemma astype_to_float (z : Z) : u8 z -> astype_uint8 (to_float z) = z.
Proof.
  intros Hz.
  pose proof (@all_from_0 cast_back 256 z cast_back_all ltac:(unfold u8 in Hz; lia)) as H.
  unfold cast_back in H. apply Z.eqb_eq in H.
  unfold to_float. rewrite H. apply to_Z_of_Z_small. unfold u8 in Hz. lia.
Qed.

Lemma sq_sum_float_exact (r g b : Z) :
  u8 r -> u8 g -> u8 b ->
  sq_sum_float (to_float r) (to_float g) (to_float b)
  = PrimFloat.of_uint63 (Uint63.of_Z (r * r + g * g + b * b)).
Proof.
  unfold u8. intros Hr Hg Hb.
  pose proof (@all_from_0 _ 256 r sum_exact_all ltac:(lia)) as H1.
  pose proof (@all_from_0 _ 256 g H1 ltac:(lia)) as H2.
  pose proof (@all_from_0 _ 256 b H2 ltac:(lia)) as H3.
  unfold sum_exact in H3. apply FloatAxioms.Leibniz.eqb_spec in H3.
  unfold to_float. rewrite H3. now rewrite !of_Z_add, !of_Z_mul.
Qed.

Lemma sq_sum_range (p : pixel) : pixel_ok p -> 0 <= sq_sum p < 195076.
Proof. unfold pixel_ok, u8, sq_sum. intros (Hr & Hg & Hb & _). nia. Qed.

(** The alpha the keyer writes is the integer ramp of [r^2+g^2+b^2]. *)
Lemma new_alpha_ramp (p : pixel) :
  pixel_ok p ->
  astype_uint8 (new_alpha (to_float (red p)) (to_float (green p)) (to_float (blue p)))
  = ramp (sq_sum p).
Proof.
  intros Hp. pose proof (sq_sum_range Hp) as Hs.
  destruct Hp as (Hr & Hg & Hb & _).
  unfold new_alpha. rewrite sq_sum_float_exact by assumption.
  pose proof (@all_from_0 _ 195076 (sq_sum p) ramp_agrees_all ltac:(lia)) as H.
  unfold ramp_agrees in H. apply Z.eqb_eq in H.
  unfold sq_sum in *. rewrite H. now rewrite to_Z_of_Z_small by lia.
Qed.

Lemma key_pixel_closed_form (p : pixel) :
  pixel_ok p ->
  key_pixel p = mkPixel (red p) (green p) (blue p) (ramp (sq_sum p)).
Proof.
  intros Hp. unfold key_pixel. rewrite new_alpha_ramp by assumption.
  destruct Hp as (Hr & Hg & Hb & _).
  now rewrite !astype_to_float by assumption.
Qed.

End KeyerFacts.

(** ** Magnitudes as real numbers *)


Section MagnitudeFacts.
Import Keyer.

Local Open Scope R_scope.

Lemma sqrt_IZR_square (n : Z) : (0 <= n)%Z -> R_sqrt.sqrt (IZR (n * n)) = IZR n.
Proof.
  intros Hn. rewrite mult_IZR. apply sqrt_square. now apply IZR_le.
Qed.

Lemma magnitude_nonneg (p : pixel) : 0 <= magnitude p.
Proof. apply sqrt_pos. Qed.

Lemma sq_sum_nonneg (p : pixel) : (0 <= sq_sum p)%Z.
Proof. unfold sq_sum. nia. Qed.

Lemma magnitude_sqr (p : pixel) : magnitude p * magnitude p = IZR (sq_sum p).
Proof. apply sqrt_sqrt. apply IZR_le, sq_sum_nonneg. Qed.

(** Comparing a magnitude with an integer bound is comparing the sum of
    squares with the square of the bound. *)
Lemma magnitude_le_iff (p : pixel) (n : Z) :
  (0 <= n)%Z -> (magnitude p <= IZR n <-> (sq_sum p <= n * n)%Z).
Proof.
  intros Hn. pose proof (magnitude_nonneg p) as Hm.
  pose proof (magnitude_sqr p) as Hsq.
  apply IZR_le in Hn. split.
  - intros Hle. apply le_IZR. rewrite mult_IZR, <- Hsq. nra.
  - intros Hle. apply IZR_le in Hle. rewrite mult_IZR, <- Hsq in Hle. nra.
Qed.

Lemma magnitude_lt_iff (p : pixel) (n : Z) :
  (0 <= n)%Z -> (IZR n < magnitude p <-> (n * n < sq_sum p)%Z).
Proof.
  intros Hn. pose proof (magnitude_le_iff p Hn) as H.
  split; intros Hlt.
  - apply Z.nle_gt. intros Hle. apply H in Hle. lra.
  - apply Rnot_le_lt. intros Hle. apply H in Hle. lia.
Qed.

Lemma magnitude_ge_iff (p : pixel) (n : Z) :
  (0 <= n)%Z -> (IZR n <= magnitude p <-> (n * n <= sq_sum p)%Z).
Proof.
  intros Hn. pose proof (magnitude_nonneg p) as Hm.
  pose proof (magnitude_sqr p) as Hsq.
  apply IZR_le in Hn. split.
  - intros Hle. apply le_IZR. rewrite mult_IZR, <- Hsq. nra.
  - intros Hle. apply IZR_le in Hle. rewrite mult_IZR, <- Hsq in Hle. nra.
Qed.

Lemma magnitude_gt_iff (p : pixel) (n : Z) :
  (0 <= n)%Z -> (magnitude p < IZR n <-> (sq_sum p < n * n)%Z).
Proof.
  intros Hn. pose proof (magnitude_ge_iff p Hn) as H.
  split; intros Hlt.
  - apply Z.nle_gt. intros Hle. apply H in Hle. lra.
  - apply Rnot_le_lt. intros Hle. apply H in Hle. lia.
Qed.

(** The integer square root brackets the real one. *)
Lemma Zsqrt_brackets (n : Z) :
  (0 <= n)%Z ->
  IZR (Z.sqrt n) <= R_sqrt.sqrt (IZR n) < IZR (Z.sqrt n) + 1.
Proof.
  intros Hn. pose proof (Z.sqrt_spec n Hn) as [Hlo Hhi].
  pose proof (Z.sqrt_nonneg n) as Hq.
  apply IZR_le in Hlo, Hq. apply IZR_lt in Hhi.
  unfold Z.succ in Hhi. rewrite !mult_IZR in *. rewrite !plus_IZR in Hhi.
  pose proof (sqrt_pos (IZR n)) as Hm.
  pose proof (sqrt_sqrt (IZR n) (IZR_le _ _ Hn)) as Hsq.
  split; nra.
Qed.

(** [floor (255 * (sqrt s - 20) / 40)] in integer arithmetic. *)
Lemma ramp_is_floor (s : Z) :
  (400 < s < 3600)%Z ->
  ramp s = Int_part (255 * (R_sqrt.sqrt (IZR s) - 20) / 40).
Proof.
  intros Hs. unfold ramp.
  destruct (Z.leb_spec s 400) as [?|_]; [lia|].
  destruct (Z.leb_spec 3600 s) as [?|_]; [lia|].
  apply Int_part_spec.
  set (q := Z.sqrt (2601 * s)).
  pose proof (@Zsqrt_brackets (2601 * s) ltac:(lia)) as [Hlo Hhi]. fold q in Hlo, Hhi.
  assert (Hroot : R_sqrt.sqrt (IZR (2601 * s)) = 51 * R_sqrt.sqrt (IZR s)).
  { rewrite mult_IZR. rewrite sqrt_mult_alt by lra.
    f_equal. change 2601%Z with (51 * 51)%Z. apply sqrt_IZR_square. lia. }
  rewrite Hroot in Hlo, Hhi.
  assert (Hq : (1020 <= q)%Z).
  { unfold q. change 1020%Z with (Z.sqrt (1020 * 1020)). apply Z.sqrt_le_mono. lia. }
  pose proof (Z.mul_div_le (q - 1020) 8 ltac:(lia)) as Ha1.
  pose proof (Z.mul_succ_div_gt (q - 1020) 8 ltac:(lia)) as Ha2.
  set (a := ((q - 1020) / 8)%Z) in *.
  assert (Ha2' : (q - 1020 + 1 <= 8 * a + 8)%Z) by lia.
  clearbody a q.
  apply IZR_le in Ha1, Ha2'.
  rewrite mult_IZR, minus_IZR in Ha1.
  rewrite !plus_IZR, mult_IZR, minus_IZR in Ha2'.
  split; lra.
Qed.

Lemma ramp_mid_bounds (s : Z) :
  (400 < s < 3600)%Z -> (0 <= (Z.sqrt (2601 * s) - 1020) / 8 <= 254)%Z.
Proof.
  intros Hs.
  assert (Hlo : (Z.sqrt (1020 * 1020) <= Z.sqrt (2601 * s))%Z)
    by (apply Z.sqrt_le_mono; lia).
  assert (Hhi : (Z.sqrt (2601 * s) < 3060)%Z)
    by (apply Z.sqrt_lt_square; lia).
  rewrite Z.sqrt_square in Hlo by lia.
  split.
  - apply Z.div_pos; lia.
  - apply Z.lt_succ_r, Z.div_lt_upper_bound; lia.
Qed.

Lemma ramp_monotone (s t : Z) : (s <= t)%Z -> (ramp s <= ramp t)%Z.
Proof.
  intros Hst. unfold ramp.
  destruct (Z.leb_spec s 400) as [Hs4|Hs4], (Z.leb_spec t 400) as [Ht4|Ht4],
           (Z.leb_spec 3600 s) as [Hs6|Hs6], (Z.leb_spec 3600 t) as [Ht6|Ht6];
    try lia;
    try (pose proof (@ramp_mid_bounds s ltac:(lia)));
    try (pose proof (@ramp_mid_bounds t ltac:(lia)));
    try lia.
  apply Z.div_le_mono; [lia|].
  assert (Z.sqrt (2601 * s) <= Z.sqrt (2601 * t))%Z
    by (apply Z.sqrt_le_mono; lia).
  lia.
Qed.

Lemma ramp_u8 (s : Z) : u8 (ramp s).
Proof.
  unfold u8, ramp.
  destruct (Z.leb_spec s 400); [lia|].
  destruct (Z.leb_spec 3600 s); [lia|].
  pose proof (@ramp_mid_bounds s ltac:(lia)). lia.
Qed.

End MagnitudeFacts.

(** ** Keying a whole image *)

Section KeyImageFacts.
Import Keyer Raster.

Lemma pixel_at_key_image (img : image) (x y : nat) :
  pixel_at (key_image img) x y = option_map key_pixel (pixel_at img x y).
Proof.
  unfold pixel_at, key_image; simpl.
  rewrite nth_error_map.
  destruct (nth_error (rows img) y) as [row|]; simpl; [|reflexivity].
  now rewrite nth_error_map.
Qed.

Lemma pixel_at_ok (img : image) (x y : nat) (p : pixel) :
  pixels_ok img -> pixel_at img x y = Some p -> pixel_ok p.
Proof.
  unfold pixels_ok, pixel_at. intros Hok Hat.
  destruct (nth_error (rows img) y) as [row|] eqn:Hrow; [|discriminate].
  apply nth_error_In in Hrow, Hat.
  rewrite Forall_forall in Hok. specialize (Hok _ Hrow).
  rewrite Forall_forall in Hok. now apply Hok.
Qed.

Lemma key_pixel_ok (p : pixel) : pixel_ok p -> pixel_ok (key_pixel p).
Proof.
  intros Hp. rewrite key_pixel_closed_form by assumption.
  destruct Hp as (Hr & Hg & Hb & _). unfold pixel_ok; simpl.
  auto using ramp_u8.
Qed.

Lemma key_alpha_ramp (p : pixel) :
  pixel_ok p -> alpha (key_pixel p) = ramp (sq_sum p).
Proof. intros Hp. now rewrite key_pixel_closed_form. Qed.

Lemma key_alpha_low (p : pixel) :
  pixel_ok p -> (magnitude p <= 20)%R -> alpha (key_pixel p) = 0%Z.
Proof.
  intros Hp Hm. rewrite key_alpha_ramp by assumption. unfold ramp.
  apply (@magnitude_le_iff p 20 ltac:(lia)) in Hm.
  destruct (Z.leb_spec (sq_sum p) 400); [reflexivity|lia].
Qed.

Lemma key_alpha_high (p : pixel) :
  pixel_ok p -> (60 <= magnitude p)%R -> alpha (key_pixel p) = 255%Z.
Proof.
  intros Hp Hm. rewrite key_alpha_ramp by assumption. unfold ramp.
  apply (@magnitude_ge_iff p 60 ltac:(lia)) in Hm.
  destruct (Z.leb_spec (sq_sum p) 400); [lia|].
  destruct (Z.leb_spec 3600 (sq_sum p)); [reflexivity|lia].
Qed.

Lemma key_image_size (img : image) :
  width (key_image img) = width img /\ height (key_image img) = height img.
Proof. unfold key_image, height; simpl. now rewrite length_map. Qed.

Lemma key_image_ok (img : image) : image_ok img -> image_ok (key_image img).
Proof.
  unfold image_ok, key_image; simpl. intros Hok.
  rewrite Forall_map. eapply Forall_impl; [|exact Hok].
  intros row Hrow. now rewrite length_map.
Qed.

End KeyImageFacts.

(** ** Claims about the keyer *)

Section KeyerClaims.
Import Keyer Raster.

(** C4. A pixel whose colour magnitude [sqrt(r^2+g^2+b^2)] is at most 20
    gets alpha 0 from the keyer, and one whose magnitude is at least 60
    gets alpha 255. *)
Theorem key_alpha_saturates (p : pixel) :
  pixel_ok p ->
  ((magnitude p <= 20)%R -> alpha (key_pixel p) = 0%Z) /\
  ((60 <= magnitude p)%R -> alpha (key_pixel p) = 255%Z).
Proof.
  intros Hp. split; intros Hm.
  - now apply key_alpha_low.
  - now apply key_alpha_high.
Qed.

(** The theorem at a dark grey (magnitude below 20) and at an orange
    (magnitude above 60). *)
Lemma key_alpha_saturates_witness :
  alpha (key_pixel (mkPixel 10 10 10 255)) = 0%Z /\
  alpha (key_pixel (mkPixel 200 100 0 7)) = 255%Z.
Proof.
  split.
  - apply (@key_alpha_saturates (mkPixel 10 10 10 255)).
    + unfold pixel_ok, u8; simpl; lia.
    + apply (@magnitude_le_iff (mkPixel 10 10 10 255) 20 ltac:(lia)).
      vm_compute. discriminate.
  - apply (@key_alpha_saturates (mkPixel 200 100 0 7)).
    + unfold pixel_ok, u8; simpl; lia.
    + apply (@magnitude_ge_iff (mkPixel 200 100 0 7) 60 ltac:(lia)).
      vm_compute. discriminate.
Defined.

(** C3, as the code has it. For a pixel whose magnitude is strictly
    between 20 and 60 the keyer's alpha is [255 * (magnitude - 20) / 40]
    with the fraction dropped (the cast truncates, it does not round);
    it does not decrease when the magnitude grows; and at magnitude
    exactly 40 it is 127. *)
Theorem key_alpha_ramp_truncates (p : pixel) :
  pixel_ok p ->
  (20 < magnitude p < 60)%R ->
  alpha (key_pixel p) = Int_part (255 * (magnitude p - 20) / 40) /\
  (forall q : pixel,
      pixel_ok q -> (20 < magnitude q < 60)%R ->
      (magnitude p <= magnitude q)%R ->
      (alpha (key_pixel p) <= alpha (key_pixel q))%Z) /\
  (magnitude p = 40%R -> alpha (key_pixel p) = 127%Z).
Proof.
  intros Hp [Hlo Hhi].
  apply (@magnitude_lt_iff p 20 ltac:(lia)) in Hlo.
  apply (@magnitude_gt_iff p 60 ltac:(lia)) in Hhi.
  rewrite key_alpha_ramp by assumption.
  split; [|split].
  - unfold magnitude. apply ramp_is_floor. lia.
  - intros q Hq _ Hle. rewrite key_alpha_ramp by assumption.
    apply ramp_monotone.
    pose proof (magnitude_nonneg p) as Hp0.
    pose proof (magnitude_sqr p) as Hpp.
    pose proof (magnitude_sqr q) as Hqq.
    apply le_IZR. rewrite <- Hpp, <- Hqq. nra.
  - intros H40.
    assert (Hs : sq_sum p = 1600%Z).
    { pose proof (magnitude_sqr p) as Hpp. rewrite H40 in Hpp.
      apply eq_IZR. rewrite <- Hpp. lra. }
    rewrite Hs. reflexivity.
Qed.

Lemma red40_facts :
  pixel_ok red40 /\ magnitude red40 = 40%R /\ (20 < magnitude red40 < 60)%R.
Proof.
  assert (Hm : magnitude red40 = 40%R).
  { unfold magnitude. change (sq_sum red40) with (40 * 40)%Z.
    now rewrite sqrt_IZR_square by lia. }
  split; [unfold pixel_ok, u8; simpl; lia|].
  split; [exact Hm|]. rewrite Hm. lra.
Qed.

Lemma red22_facts :
  pixel_ok red22 /\ magnitude red22 = 22%R /\ (20 < magnitude red22 < 60)%R.
Proof.
  assert (Hm : magnitude red22 = 22%R).
  { unfold magnitude. change (sq_sum red22) with (22 * 22)%Z.
    now rewrite sqrt_IZR_square by lia. }
  split; [unfold pixel_ok, u8; simpl; lia|].
  split; [exact Hm|]. rewrite Hm. lra.
Qed.

(** The theorem at pure red 40: the ramp value is 127.5 and the alpha
    is 127. *)
Lemma key_alpha_ramp_truncates_witness :
  alpha (key_pixel red40) = Int_part (255 * (magnitude red40 - 20) / 40) /\
  alpha (key_pixel red40) = 127%Z.
Proof.
  destruct red40_facts as (Hok & Hm & Hrange).
  destruct (@key_alpha_ramp_truncates red40 Hok Hrange) as (Hfloor & _ & H40).
  split; [exact Hfloor | exact (H40 Hm)].
Defined.

(** C3 as stated fails: pure red 40 has magnitude exactly 40, strictly
    between 20 and 60, and rounding 255 * 0.5 gives 128, yet the keyer
    writes 127; pure red 22 has ramp value 12.75, whose only nearest
    integer is 13, yet the keyer writes 12. *)
Lemma key_alpha_round_counterexample :
  (pixel_ok red40 /\ magnitude red40 = 40%R /\
   round_half_up (255 * (magnitude red40 - 20) / 40) = 128%Z /\
   alpha (key_pixel red40) = 127%Z) /\
  (pixel_ok red22 /\ (20 < magnitude red22 < 60)%R /\
   round_half_up (255 * (magnitude red22 - 20) / 40) = 13%Z /\
   (forall n : Z,
       (Rabs (255 * (magnitude red22 - 20) / 40 - IZR n) <= / 2)%R -> n = 13%Z) /\
   alpha (key_pixel red22) = 12%Z).
Proof.
  destruct red40_facts as (Hok40 & Hm40 & _).
  destruct red22_facts as (Hok22 & Hm22 & Hr22).
  split.
  - split; [exact Hok40|]. split; [exact Hm40|]. split.
    + unfold round_half_up. rewrite Hm40. symmetry. apply Int_part_spec. lra.
    + rewrite key_alpha_ramp by assumption. reflexivity.
  - split; [exact Hok22|]. split; [exact Hr22|]. split; [|split].
    + unfold round_half_up. rewrite Hm22. symmetry. apply Int_part_spec. lra.
    + intros n Hn. rewrite Hm22 in Hn.
      assert (12 < n < 14)%Z; [|lia].
      unfold Rabs in Hn.
      destruct (Rcase_abs (255 * (22 - 20) / 40 - IZR n));
        split; apply lt_IZR; lra.
    + rewrite key_alpha_ramp by assumption. reflexivity.
Qed.

(** C8. Keying changes only the alpha channel: every pixel of the keyed
    image has the red, green and blue values it had before, whatever
    alpha it receives. *)
Theorem key_image_keeps_colour (img : image) (x y : nat) (p : pixel) :
  pixels_ok img ->
  pixel_at img x y = Some p ->
  exists q : pixel,
    pixel_at (key_image img) x y = Some q /\
    red q = red p /\ green q = green p /\ blue q = blue p.
Proof.
  intros Hok Hat. exists (key_pixel p). split.
  - rewrite pixel_at_key_image, Hat. reflexivity.
  - rewrite key_pixel_closed_form by (eapply pixel_at_ok; eauto).
    simpl. auto.
Qed.

End KeyerClaims.

(** ** Scanning a list for its first and last hit *)

Section ScanFacts.
Import Raster.
Variable T : Type.
Variable f : T -> bool.

Lemma lead_le (l : list T) : lead f l <= length l.
Proof. induction l as [|x l IH]; simpl; [lia|]. destruct (f x); lia. Qed.

Lemma lead_lt_iff (l : list T) : existsb f l = true <-> lead f l < length l.
Proof.
  induction l as [|x l IH]; simpl.
  - split; [discriminate|lia].
  - destruct (f x); simpl; [split; [lia|reflexivity]|].
    rewrite IH. lia.
Qed.

Lemma lead_hit (l : list T) :
  lead f l < length l ->
  exists x, nth_error l (lead f l) = Some x /\ f x = true.
Proof.
  induction l as [|x l IH]; simpl; [lia|].
  destruct (f x) eqn:Hx; intros Hlt.
  - exists x. now split.
  - apply IH. lia.
Qed.

Lemma lead_first (l : list T) (i : nat) (x : T) :
  nth_error l i = Some x -> f x = true -> lead f l <= i.
Proof.
  revert i. induction l as [|a l IH]; intros [|i] Hnth Hx; simpl in *;
    try discriminate.
  - injection Hnth as ->. rewrite Hx. lia.
  - destruct (f a); [lia|]. specialize (IH _ Hnth Hx). lia.
Qed.

Lemma trail_le (l : list T) : trail f l <= length l.
Proof.
  induction l as [|x l IH]; simpl; [lia|].
  destruct (trail f l); [destruct (f x); lia|lia].
Qed.

Lemma trail_pos_iff (l : list T) : existsb f l = true <-> 0 < trail f l.
Proof.
  induction l as [|x l IH]; simpl.
  - split; [discriminate|lia].
  - destruct (trail f l) as [|k].
    + destruct (f x); simpl; [split; [lia|reflexivity]|].
      rewrite IH. lia.
    + split; [lia|]. intros _. apply orb_true_iff. right. apply IH. lia.
Qed.

Lemma trail_hit (l : list T) :
  0 < trail f l ->
  exists x, nth_error l (trail f l - 1) = Some x /\ f x = true.
Proof.
  induction l as [|x l IH]; simpl; [lia|].
  destruct (trail f l) as [|k] eqn:Ht.
  - destruct (f x) eqn:Hx; [|lia]. intros _. exists x. now split.
  - intros _. destruct IH as (y & Hy & Hfy); [lia|].
    exists y. split; [|exact Hfy].
    simpl in Hy. rewrite Nat.sub_0_r in Hy. simpl. exact Hy.
Qed.

Lemma trail_last (l : list T) (i : nat) (x : T) :
  nth_error l i = Some x -> f x = true -> i < trail f l.
Proof.
  revert i. induction l as [|a l IH]; intros [|i] Hnth Hx; simpl in *;
    try discriminate.
  - injection Hnth as ->. rewrite Hx. destruct (trail f l); lia.
  - specialize (IH _ Hnth Hx). destruct (trail f l); lia.
Qed.

Lemma lead_lt_trail (l : list T) : existsb f l = true -> lead f l < trail f l.
Proof.
  intros Hex. apply lead_lt_iff in Hex.
  destruct (lead_hit l Hex) as (x & Hx & Hfx).
  exact (trail_last _ _ Hx Hfx).
Qed.

Lemma lead_none (l : list T) : existsb f l = false -> lead f l = length l.
Proof.
  intros Hex. pose proof (lead_le l). pose proof (lead_lt_iff l) as [_ H1].
  destruct (Nat.eq_dec (lead f l) (length l)); [assumption|].
  rewrite H1 in Hex by lia. discriminate.
Qed.

Lemma trail_none (l : list T) : existsb f l = false -> trail f l = 0.
Proof.
  intros Hex. pose proof (trail_pos_iff l) as [_ H1].
  destruct (trail f l); [reflexivity|].
  rewrite H1 in Hex by lia. discriminate.
Qed.

Lemma lead_skipn (a : nat) (l : list T) :
  a <= lead f l -> lead f (skipn a l) = lead f l - a.
Proof.
  revert l. induction a as [|a IH]; intros l Ha; simpl.
  - lia.
  - destruct l as [|x l]; simpl in *; [lia|].
    destruct (f x); [lia|]. apply IH. lia.
Qed.

Lemma lead_firstn (n : nat) (l : list T) :
  lead f (firstn n l) = Nat.min n (lead f l).
Proof.
  revert n. induction l as [|x l IH]; intros [|n]; simpl; try reflexivity.
  destruct (f x); [reflexivity|]. now rewrite IH.
Qed.

Lemma trail_skipn (a : nat) (l : list T) :
  trail f (skipn a l) = trail f l - a.
Proof.
  revert l. induction a as [|a IH]; intros l; simpl; [lia|].
  destruct l as [|x l]; simpl; [reflexivity|].
  rewrite IH. destruct (trail f l); [destruct (f x); lia|lia].
Qed.

Lemma trail_firstn (n : nat) (l : list T) :
  trail f l <= n -> trail f (firstn n l) = trail f l.
Proof.
  revert n. induction l as [|x l IH]; intros n Hn.
  - now rewrite firstn_nil.
  - destruct n as [|n]; simpl in *.
    + destruct (trail f l); [destruct (f x); [lia|reflexivity]|lia].
    + destruct (trail f l) as [|k] eqn:Ht.
      * rewrite IH by lia. reflexivity.
      * rewrite IH by lia. reflexivity.
Qed.

End ScanFacts.

Section ScanMaps.
Import Raster.
Variables T U : Type.

Lemma lead_ext_in (f g : T -> bool) (l : list T) :
  (forall x, In x l -> f x = g x) -> lead f l = lead g l.
Proof.
  induction l as [|x l IH]; intros Hfg; simpl; [reflexivity|].
  rewrite (Hfg x (or_introl eq_refl)).
  rewrite IH; [reflexivity|]. intros y Hy. apply Hfg. now right.
Qed.

Lemma trail_ext_in (f g : T -> bool) (l : list T) :
  (forall x, In x l -> f x = g x) -> trail f l = trail g l.
Proof.
  induction l as [|x l IH]; intros Hfg; simpl; [reflexivity|].
  rewrite (Hfg x (or_introl eq_refl)).
  rewrite IH; [reflexivity|]. intros y Hy. apply Hfg. now right.
Qed.

Lemma lead_map (f : U -> bool) (h : T -> U) (l : list T) :
  lead f (map h l) = lead (fun x => f (h x)) l.
Proof. induction l as [|x l IH]; simpl; [reflexivity|]. now rewrite IH. Qed.

Lemma trail_map (f : U -> bool) (h : T -> U) (l : list T) :
  trail f (map h l) = trail (fun x => f (h x)) l.
Proof. induction l as [|x l IH]; simpl; [reflexivity|]. now rewrite IH. Qed.

End ScanMaps.



Section FoldFacts.

Lemma fold_min_le_init (w : nat) (l : list nat) : fold_right Nat.min w l <= w.
Proof. induction l as [|x l IH]; simpl; lia. Qed.

Lemma fold_min_le_elem (w : nat) (l : list nat) (x : nat) :
  In x l -> fold_right Nat.min w l <= x.
Proof.
  induction l as [|a l IH]; simpl; [tauto|].
  intros [->|Hin]; [lia|]. specialize (IH Hin). lia.
Qed.

Lemma fold_min_attained (w : nat) (l : list nat) :
  fold_right Nat.min w l = w \/ In (fold_right Nat.min w l) l.
Proof.
  induction l as [|a l IH]; simpl; [now left|].
  destruct (Nat.min_spec a (fold_right Nat.min w l)) as [[_ ->]|[_ ->]].
  - right. now left.
  - destruct IH as [IH|IH]; [now left|right; now right].
Qed.

Lemma fold_max_ge_elem (l : list nat) (x : nat) :
  In x l -> x <= fold_right Nat.max 0 l.
Proof.
  induction l as [|a l IH]; simpl; [tauto|].
  intros [->|Hin]; [lia|]. specialize (IH Hin). lia.
Qed.

Lemma fold_max_attained (l : list nat) :
  fold_right Nat.max 0 l = 0 \/ In (fold_right Nat.max 0 l) l.
Proof.
  induction l as [|a l IH]; simpl; [now left|].
  destruct (Nat.max_spec a (fold_right Nat.max 0 l)) as [[_ ->]|[_ ->]].
  - destruct IH as [IH|IH]; [|right; now right].
    rewrite IH. destruct a; [now left|]. lia.
  - right. now left.
Qed.

Lemma fold_max_le_bound (l : list nat) (n : nat) :
  (forall x, In x l -> x <= n) -> fold_right Nat.max 0 l <= n.
Proof.
  induction l as [|a l IH]; simpl; intros Hb; [lia|].
  pose proof (Hb a (or_introl eq_refl)).
  assert (fold_right Nat.max 0 l <= n) by (apply IH; intros; apply Hb; now right).
  lia.
Qed.

End FoldFacts.

Section BoxFacts.
Import Raster BoxSpec.

Lemma visible_iff (p : pixel) : visible p = true <-> alpha p <> 0%Z.
Proof.
  unfold visible. rewrite negb_true_iff. apply Z.eqb_neq.
Qed.

Lemma visible_at_row (img : image) (x y : nat) :
  visible_at img x y <->
  exists row p, nth_error (rows img) y = Some row /\
                nth_error row x = Some p /\ visible p = true.
Proof.
  unfold visible_at, pixel_at. split.
  - intros (p & Hat & Ha).
    destruct (nth_error (rows img) y) as [row|]; [|discriminate].
    exists row, p. now rewrite visible_iff.
  - intros (row & p & Hrow & Hp & Hv). exists p. rewrite Hrow.
    now rewrite <- visible_iff.
Qed.

Lemma has_data_at (row : list pixel) (x : nat) (p : pixel) :
  nth_error row x = Some p -> visible p = true -> has_data row = true.
Proof.
  intros Hp Hv. apply existsb_exists. exists p.
  split; [eapply nth_error_In; eauto|assumption].
Qed.

Lemma getbbox_unfold (img : image) :
  getbbox img =
  if existsb has_data (rows img) then
    Some (left_edge img, lead has_data (rows img),
          right_edge img, trail has_data (rows img))
  else None.
Proof. reflexivity. Qed.

Lemma getbbox_none_iff (img : image) :
  getbbox img = None <-> forall x y, ~ visible_at img x y.
Proof.
  rewrite getbbox_unfold.
  destruct (existsb has_data (rows img)) eqn:Hex.
  - split; [discriminate|]. intros Hnone. exfalso.
    apply existsb_exists in Hex as (row & Hrow & Hdata).
    apply existsb_exists in Hdata as (p & Hp & Hv).
    apply In_nth_error in Hrow as (y & Hy).
    apply In_nth_error in Hp as (x & Hx).
    apply (Hnone x y). apply visible_at_row. now exists row, p.
  - split; [|reflexivity]. intros _ x y Hvis.
    apply visible_at_row in Hvis as (row & p & Hrow & Hp & Hv).
    assert (existsb has_data (rows img) = true); [|congruence].
    apply existsb_exists. exists row.
    split; [eapply nth_error_In; eauto|eapply has_data_at; eauto].
Qed.

(** Every visible pixel lies inside the edges. *)
Lemma edges_enclose (img : image) (x y : nat) :
  visible_at img x y ->
  left_edge img <= x < right_edge img /\
  lead has_data (rows img) <= y < trail has_data (rows img).
Proof.
  intros Hvis. apply visible_at_row in Hvis as (row & p & Hrow & Hp & Hv).
  pose proof (has_data_at _ _ Hp Hv) as Hd.
  pose proof (nth_error_In _ _ Hrow) as Hin.
  repeat split.
  - transitivity (lead visible row); [|eapply lead_first; eauto].
    apply fold_min_le_elem. now apply in_map.
  - apply Nat.lt_le_trans with (trail visible row); [eapply trail_last; eauto|].
    apply fold_max_ge_elem. now apply in_map.
  - eapply lead_first; eauto.
  - eapply trail_last; eauto.
Qed.

(** Each edge is touched by a visible pixel. *)
Lemma left_edge_touched (img : image) :
  image_ok img -> existsb has_data (rows img) = true ->
  exists y, visible_at img (left_edge img) y.
Proof.
  intros Hok Hex.
  assert (Hlt : left_edge img < width img).
  { apply existsb_exists in Hex as (row & Hrow & Hdata).
    apply Nat.le_lt_trans with (lead visible row).
    - apply fold_min_le_elem. now apply in_map.
    - unfold image_ok in Hok. rewrite Forall_forall in Hok.
      rewrite <- (Hok _ Hrow). now apply lead_lt_iff. }
  destruct (fold_min_attained (width img) (map (lead visible) (rows img)))
    as [Heq|Hin]; [unfold left_edge in Hlt; lia|].
  fold (left_edge img) in Hin.
  apply in_map_iff in Hin as (row & Hlead & Hrow).
  assert (Hrl : lead visible row < length row).
  { unfold image_ok in Hok. rewrite Forall_forall in Hok.
    rewrite (Hok _ Hrow). lia. }
  destruct (lead_hit _ _ Hrl) as (p & Hp & Hv).
  apply In_nth_error in Hrow as (y & Hy).
  exists y. apply visible_at_row. exists row, p. now rewrite <- Hlead.
Qed.

Lemma right_edge_touched (img : image) :
  existsb has_data (rows img) = true ->
  exists y, visible_at img (right_edge img - 1) y /\ 0 < right_edge img.
Proof.
  intros Hex.
  assert (Hpos : 0 < right_edge img).
  { apply existsb_exists in Hex as (row & Hrow & Hdata).
    apply Nat.lt_le_trans with (trail visible row).
    - now apply trail_pos_iff.
    - apply fold_max_ge_elem. now apply in_map. }
  destruct (fold_max_attained (map (trail visible) (rows img)))
    as [Heq|Hin]; [unfold right_edge in Hpos; lia|].
  fold (right_edge img) in Hin.
  apply in_map_iff in Hin as (row & Htrail & Hrow).
  destruct (@trail_hit _ visible row ltac:(lia)) as (p & Hp & Hv).
  apply In_nth_error in Hrow as (y & Hy).
  exists y. split; [|assumption].
  apply visible_at_row. exists row, p. now rewrite <- Htrail.
Qed.

Lemma row_visible (img : image) (y : nat) (row : list pixel) :
  nth_error (rows img) y = Some row -> has_data row = true ->
  exists x, visible_at img x y.
Proof.
  intros Hrow Hd. apply existsb_exists in Hd as (p & Hp & Hv).
  apply In_nth_error in Hp as (x & Hx).
  exists x. apply visible_at_row. now exists row, p.
Qed.

Lemma upper_edge_touched (img : image) :
  existsb has_data (rows img) = true ->
  exists x, visible_at img x (lead has_data (rows img)).
Proof.
  intros Hex. apply lead_lt_iff in Hex.
  destruct (lead_hit _ _ Hex) as (row & Hrow & Hd).
  eapply row_visible; eauto.
Qed.

Lemma lower_edge_touched (img : image) :
  existsb has_data (rows img) = true ->
  exists x, visible_at img x (trail has_data (rows img) - 1) /\
            0 < trail has_data (rows img).
Proof.
  intros Hex. apply trail_pos_iff in Hex.
  destruct (trail_hit _ _ Hex) as (row & Hrow & Hd).
  destruct (row_visible _ _ Hrow Hd) as (x & Hx). now exists x.
Qed.

End BoxFacts.

Section CropFacts.
Import Raster BoxSpec.

Lemma in_slice (T : Type) (n a : nat) (l : list T) (x : T) :
  In x (firstn n (skipn a l)) -> In x l.
Proof.
  intros Hin. rewrite <- (firstn_skipn a l). apply in_or_app. right.
  rewrite <- (firstn_skipn n (skipn a l)). apply in_or_app. now left.
Qed.

Lemma right_edge_le_width (img : image) :
  image_ok img -> right_edge img <= width img.
Proof.
  intros Hok. apply fold_max_le_bound. intros n Hn.
  apply in_map_iff in Hn as (row & <- & Hrow).
  unfold image_ok in Hok. rewrite Forall_forall in Hok.
  rewrite <- (Hok _ Hrow). apply trail_le.
Qed.

Lemma window_length (x0 x1 : nat) (row : list pixel) :
  x1 <= length row -> length (window x0 x1 row) = x1 - x0.
Proof.
  intros Hx. unfold window. rewrite length_firstn, length_skipn. lia.
Qed.

Lemma crop_ok (img : image) (x0 y0 x1 y1 : nat) :
  image_ok img -> x1 <= width img -> image_ok (crop img (x0, y0, x1, y1)).
Proof.
  unfold image_ok; simpl. intros Hok Hx. rewrite Forall_forall in *.
  intros row' Hin. apply in_map_iff in Hin as (row & <- & Hrow).
  apply window_length. rewrite Hok; [assumption|].
  eapply in_slice; eauto.
Qed.

Lemma crop_height (img : image) (x0 y0 x1 y1 : nat) :
  y1 <= height img -> height (crop img (x0, y0, x1, y1)) = y1 - y0.
Proof.
  unfold height; simpl. intros Hy.
  rewrite length_map, length_firstn, length_skipn. lia.
Qed.

(** A crop shows the pixels of the box, moved to the origin. *)
Lemma pixel_at_crop (img : image) (x0 y0 x1 y1 x y : nat) :
  x < x1 - x0 -> y < y1 - y0 ->
  pixel_at (crop img (x0, y0, x1, y1)) x y = pixel_at img (x0 + x) (y0 + y).
Proof.
  intros Hx Hy. unfold pixel_at; simpl.
  rewrite nth_error_map, nth_error_firstn, nth_error_skipn.
  destruct (Nat.ltb_spec y (y1 - y0)); [|lia].
  destruct (nth_error (rows img) (y0 + y)) as [row|]; simpl; [|reflexivity].
  unfold window. rewrite nth_error_firstn, nth_error_skipn.
  destruct (Nat.ltb_spec x (x1 - x0)); [reflexivity|lia].
Qed.

Lemma visible_at_crop (img : image) (x0 y0 x1 y1 x y : nat) :
  x0 <= x < x1 -> y0 <= y < y1 ->
  visible_at img x y ->
  visible_at (crop img (x0, y0, x1, y1)) (x - x0) (y - y0).
Proof.
  intros Hx Hy (p & Hp & Ha). exists p. split; [|assumption].
  rewrite pixel_at_crop by lia.
  now replace (x0 + (x - x0)) with x by lia; replace (y0 + (y - y0)) with y by lia.
Qed.

Lemma crop_full (img : image) :
  image_ok img -> crop img (0, 0, width img, height img) = img.
Proof.
  intros Hok. destruct img as [w rs]. unfold crop, height; simpl in *.
  rewrite !Nat.sub_0_r, firstn_all. f_equal.
  rewrite <- (map_id rs) at 2. apply map_ext_in. intros row Hrow.
  unfold image_ok in Hok; simpl in Hok. rewrite Forall_forall in Hok.
  unfold window. rewrite Nat.sub_0_r. simpl.
  apply firstn_all2. rewrite (Hok _ Hrow). lia.
Qed.

Lemma getbbox_some_iff (img : image) (b : box) :
  getbbox img = Some b <->
  existsb has_data (rows img) = true /\
  b = (left_edge img, lead has_data (rows img),
       right_edge img, trail has_data (rows img)).
Proof.
  rewrite getbbox_unfold. destruct (existsb has_data (rows img)).
  - split; [intros [= <-]; now split|intros [_ ->]; reflexivity].
  - split; [discriminate|intros [? _]; discriminate].
Qed.

Lemma getbbox_bounds (img : image) (x0 y0 x1 y1 : nat) :
  image_ok img -> getbbox img = Some (x0, y0, x1, y1) ->
  x0 < x1 <= width img /\ y0 < y1 <= height img.
Proof.
  intros Hok Hb. apply getbbox_some_iff in Hb as [Hex [= -> -> -> ->]].
  destruct (left_edge_touched Hok Hex) as (y & Hy).
  apply edges_enclose in Hy.
  pose proof (right_edge_le_width Hok).
  pose proof (trail_le has_data (rows img)). unfold height. lia.
Qed.

(** After a bounding-box crop the bounding box is the whole image. *)
Lemma getbbox_crop_full (img : image) (b : box) :
  image_ok img -> getbbox img = Some b ->
  getbbox (crop img b) = Some (0, 0, width (crop img b), height (crop img b)).
Proof.
  intros Hok Hb. destruct b as [[[x0 y0] x1] y1].
  pose proof (getbbox_bounds Hok Hb) as [Hx Hy].
  pose proof Hb as Hb'. apply getbbox_some_iff in Hb' as [Hex Heq].
  injection Heq as Hx0 Hy0 Hx1 Hy1.
  set (c := crop img (x0, y0, x1, y1)).
  assert (Hcok : image_ok c) by (apply crop_ok; [assumption|lia]).
  assert (Hch : height c = y1 - y0) by (apply crop_height; lia).
  assert (Hcw : width c = x1 - x0) by reflexivity.
  (* the four pixels that touch the edges of the box *)
  destruct (left_edge_touched Hok Hex) as (yl & Hl).
  destruct (right_edge_touched img Hex) as (yr & Hr & _).
  destruct (upper_edge_touched img Hex) as (xu & Hu).
  destruct (lower_edge_touched img Hex) as (xd & Hd & _).
  rewrite <- ?Hx0, <- ?Hx1, <- ?Hy0, <- ?Hy1 in *.
  pose proof (edges_enclose Hl) as El. pose proof (edges_enclose Hr) as Er.
  pose proof (edges_enclose Hu) as Eu. pose proof (edges_enclose Hd) as Ed.
  rewrite <- ?Hx0, <- ?Hx1, <- ?Hy0, <- ?Hy1 in *.
  apply (@visible_at_crop img x0 y0 x1 y1) in Hl, Hr, Hu, Hd; try lia.
  fold c in Hl, Hr, Hu, Hd.
  apply edges_enclose in Hl, Hr, Hu, Hd.
  pose proof (right_edge_le_width Hcok) as Hrw.
  pose proof (trail_le has_data (rows c)) as Hth. fold (height c) in Hth.
  apply getbbox_some_iff. split.
  - apply trail_pos_iff. lia.
  - repeat f_equal; lia.
Qed.

(** C7. The bounding-box crop is idempotent: cropping an image to the
    box of its visible pixels twice in a row gives the same image as
    cropping it once. *)
Theorem crop_to_content_idempotent (img : image) :
  image_ok img ->
  crop_to_content (crop_to_content img) = crop_to_content img.
Proof.
  intros Hok. unfold crop_to_content at 2 3.
  destruct (getbbox img) as [b|] eqn:Hb.
  - unfold crop_to_content. rewrite (getbbox_crop_full Hok Hb).
    apply crop_full. destruct b as [[[x0 y0] x1] y1].
    apply crop_ok; [assumption|].
    pose proof (getbbox_bounds Hok Hb). lia.
  - unfold crop_to_content. now rewrite Hb.
Qed.

End CropFacts.

Section BoxClaims.
Import Keyer Raster BoxSpec.

Lemma existsb_map_alpha (row : list pixel) :
  has_data row = existsb nonzero (map alpha row).
Proof.
  unfold has_data. induction row as [|p row IH]; simpl; [reflexivity|].
  now rewrite IH.
Qed.

Lemma getbbox_of_alpha_layer (img : image) :
  getbbox img =
  let layer := alpha_layer img in
  if existsb (existsb nonzero) layer then
    Some (fold_right Nat.min (width img) (map (lead nonzero) layer),
          lead (existsb nonzero) layer,
          fold_right Nat.max 0 (map (trail nonzero) layer),
          trail (existsb nonzero) layer)
  else None.
Proof.
  unfold getbbox, alpha_layer. cbv zeta.
  rewrite !map_map, lead_map, trail_map.
  assert (Hex : existsb (existsb nonzero) (map (map alpha) (rows img))
                = existsb has_data (rows img)).
  { induction (rows img) as [|row l IH]; simpl; [reflexivity|].
    now rewrite IH, existsb_map_alpha. }
  rewrite Hex.
  rewrite (map_ext (fun row => lead nonzero (map alpha row)) (lead visible))
    by (intros row; apply lead_map).
  rewrite (map_ext (fun row => trail nonzero (map alpha row)) (trail visible))
    by (intros row; apply trail_map).
  rewrite (lead_ext_in (fun row => existsb nonzero (map alpha row)) has_data)
    by (intros row _; symmetry; apply existsb_map_alpha).
  rewrite (trail_ext_in (fun row => existsb nonzero (map alpha row)) has_data)
    by (intros row _; symmetry; apply existsb_map_alpha).
  reflexivity.
Qed.

(** C2. The bounding-box crop works on the minimal rectangle around
    the pixels with a non-zero alpha. When [getbbox] gives a box, some
    pixel has a non-zero alpha, the box holds every such pixel, every
    box that holds them all contains it, and the image is cropped to it.
    When it gives [None], no pixel has a non-zero alpha and the image is
    left as it is. The box is read off the alpha channel alone: an image
    of the same width with the same alpha values has the same box,
    whatever its colours. *)
Theorem getbbox_minimal_alpha_box (img : image) :
  image_ok img ->
  match getbbox img with
  | Some b =>
      (exists x y, visible_at img x y) /\
      encloses img b /\
      (forall b' : box, encloses img b' -> box_within b b') /\
      crop_to_content img = crop img b
  | None =>
      (forall x y, ~ visible_at img x y) /\ crop_to_content img = img
  end /\
  (forall img' : image,
      width img' = width img -> alpha_layer img' = alpha_layer img ->
      getbbox img' = getbbox img).
Proof.
  intros Hok. split.
  - unfold crop_to_content. destruct (getbbox img) as [b|] eqn:Hb.
    + apply getbbox_some_iff in Hb as [Hex ->].
      destruct (left_edge_touched Hok Hex) as (yl & Hl).
      destruct (right_edge_touched img Hex) as (yr & Hr & Hrpos).
      destruct (upper_edge_touched img Hex) as (xu & Hu).
      destruct (lower_edge_touched img Hex) as (xd & Hd & Hdpos).
      split; [now exists (left_edge img), yl|].
      split; [intros x y Hvis; apply edges_enclose; exact Hvis|].
      split; [|reflexivity].
      intros [[[x0' y0'] x1'] y1'] Henc. unfold box_within.
      apply Henc in Hl, Hr, Hu, Hd. unfold in_box in *. lia.
    + split; [now apply getbbox_none_iff|reflexivity].
  - intros img' Hw Hlayer.
    rewrite (getbbox_of_alpha_layer img), (getbbox_of_alpha_layer img').
    now rewrite Hw, Hlayer.
Qed.

(** C5. When every pixel has a magnitude of at most 20, keying makes
    every alpha zero, [getbbox] finds no box, the crop is skipped, and
    the keyed image goes on unchanged, with the width and the height of
    the input. *)
Theorem dark_image_is_not_cropped (img : image) :
  pixels_ok img ->
  (forall x y p, pixel_at img x y = Some p -> (magnitude p <= 20)%R) ->
  let keyed := key_image img in
  (forall x y q, pixel_at keyed x y = Some q -> alpha q = 0%Z) /\
  getbbox keyed = None /\
  crop_to_content keyed = keyed /\
  width (crop_to_content keyed) = width img /\
  height (crop_to_content keyed) = height img.
Proof.
  intros Hok Hdark keyed.
  assert (Hclear : forall x y q, pixel_at keyed x y = Some q -> alpha q = 0%Z).
  { intros x y q Hq. unfold keyed in Hq. rewrite pixel_at_key_image in Hq.
    destruct (pixel_at img x y) as [p|] eqn:Hp; [|discriminate].
    injection Hq as <-.
    apply key_alpha_low; [exact (@pixel_at_ok img x y p Hok Hp)|].
    eapply Hdark; eauto. }
  assert (Hnone : getbbox keyed = None).
  { apply getbbox_none_iff. intros x y (q & Hq & Ha). apply Ha. eauto. }
  assert (Hsame : crop_to_content keyed = keyed)
    by (unfold crop_to_content; now rewrite Hnone).
  repeat split; try assumption; rewrite Hsame; apply key_image_size.
Qed.

End BoxClaims.



Section SplitterFacts.
Import Raster Splitter GapSpec.
Local Open Scope Z_scope.

Lemma half_bounds (h : Z) : 2 * (h / 2) <= h < 2 * (h / 2) + 2.
Proof.
  pose proof (Z.div_mod h 2 ltac:(lia)).
  pose proof (Z.mod_pos_bound h 2 ltac:(lia)). lia.
Qed.

Lemma py_range_nil (lo hi : Z) : hi <= lo -> py_range lo hi = [].
Proof.
  intros H. unfold py_range. now replace (Z.to_nat (hi - lo)) with 0%nat by lia.
Qed.

Lemma py_range_cons (lo hi : Z) :
  lo < hi -> py_range lo hi = lo :: py_range (lo + 1) hi.
Proof.
  intros H. unfold py_range.
  replace (Z.to_nat (hi - lo)) with (S (Z.to_nat (hi - (lo + 1)))) by lia.
  simpl. f_equal; [lia|].
  rewrite <- seq_shift, map_map. apply map_ext. intros k. lia.
Qed.

Lemma in_py_range (lo hi y : Z) : In y (py_range lo hi) <-> lo <= y < hi.
Proof.
  unfold py_range. rewrite in_map_iff. split.
  - intros (k & <- & Hk). apply in_seq in Hk. lia.
  - intros Hy. exists (Z.to_nat (y - lo)). split; [lia|]. apply in_seq. lia.
Qed.

(** The rows before an element of a range are the range up to it. *)
Lemma py_range_split (pre post : list Z) :
  forall lo hi y : Z,
    py_range lo hi = pre ++ y :: post -> pre = py_range lo y /\ lo <= y < hi.
Proof.
  induction pre as [|p pre IH]; intros lo hi y Heq; simpl in Heq.
  - destruct (Z_lt_le_dec lo hi) as [Hlt|Hle].
    + rewrite py_range_cons in Heq by assumption. injection Heq as <- _.
      split; [now rewrite py_range_nil by lia|lia].
    + rewrite py_range_nil in Heq by assumption. discriminate.
  - destruct (Z_lt_le_dec lo hi) as [Hlt|Hle].
    + rewrite py_range_cons in Heq by assumption. injection Heq as <- Heq.
      destruct (IH _ _ _ Heq) as [-> Hy].
      split; [now rewrite (@py_range_cons lo y) by lia|lia].
    + rewrite py_range_nil in Heq by assumption. discriminate.
Qed.

Lemma item_in_range (a : list Z) (y : Z) :
  0 <= y < Z.of_nat (length a) -> item a y = Some (coverage a y).
Proof.
  intros Hy. unfold item, coverage.
  destruct (Z.leb_spec 0 y); [|lia].
  destruct (Z.ltb_spec y (Z.of_nat (length a))); [|lia]. simpl.
  apply nth_error_nth'. lia.
Qed.

Lemma coverage_skipn (a : list Z) (n k : nat) :
  nth k (skipn n a) 0 = coverage a (Z.of_nat n + Z.of_nat k).
Proof.
  unfold coverage. rewrite nth_skipn. f_equal. lia.
Qed.

(** [sum(row_sums[y:y+5])] adds the coverage of the rows [y .. y+4]. *)
Lemma window_sum (a : list Z) (y : Z) :
  0 <= y -> y + 5 <= Z.of_nat (length a) ->
  py_sum (slice a y (y + 5))
  = coverage a y + coverage a (y + 1) + coverage a (y + 2)
    + coverage a (y + 3) + coverage a (y + 4).
Proof.
  intros Hy Hlen. unfold slice, py_sum.
  replace (Z.to_nat (y + 5 - y)) with 5%nat by lia.
  pose proof (coverage_skipn a (Z.to_nat y)) as Hc.
  rewrite Z2Nat.id in Hc by lia.
  pose proof (length_skipn (Z.to_nat y) a) as Hl.
  destruct (skipn (Z.to_nat y) a) as [|v0 [|v1 [|v2 [|v3 [|v4 rest]]]]];
    simpl in Hl; try lia.
  pose proof (Hc 0%nat) as H0. pose proof (Hc 1%nat) as H1.
  pose proof (Hc 2%nat) as H2. pose proof (Hc 3%nat) as H3.
  pose proof (Hc 4%nat) as H4. simpl in H0, H1, H2, H3, H4.
  replace (y + 0) with y in H0 by lia.
  rewrite <- H0, <- H1, <- H2, <- H3, <- H4. simpl. lia.
Qed.

(** Inside the scan range the loop test is defined and decides [gap_at]. *)
Lemma is_gap_in_range (a : list Z) (y : Z) :
  0 <= y -> y + 5 <= Z.of_nat (length a) ->
  exists b : bool, is_gap a y = Some b /\ (b = true <-> gap_at a y).
Proof.
  intros Hy Hlen. unfold is_gap, gap_at.
  rewrite item_in_range by lia. rewrite window_sum by assumption.
  eexists. split; [reflexivity|].
  destruct (Z.ltb_spec (coverage a y) 10).
  - rewrite Z.ltb_lt. tauto.
  - split; [discriminate|lia].
Qed.

(** What the loop returns over rows on which its test is defined. *)
Lemma scan_result (a : list Z) (ys : list Z) (sp0 : Z) :
  (forall y, In y ys -> 0 <= y /\ y + 5 <= Z.of_nat (length a)) ->
  exists sp, scan a ys sp0 = Some sp /\
    ((sp = sp0 /\ forall y, In y ys -> ~ gap_at a y) \/
     (exists pre post, ys = pre ++ sp :: post /\ gap_at a sp /\
                       forall y, In y pre -> ~ gap_at a y)).
Proof.
  induction ys as [|y ys IH]; intros Hin; simpl.
  - exists sp0. split; [reflexivity|]. left. split; [reflexivity|]. intros ? [].
  - destruct (Hin y (or_introl eq_refl)) as [Hy0 Hy5].
    destruct (is_gap_in_range a Hy0 Hy5) as (b & -> & Hb).
    destruct b.
    + exists y. split; [reflexivity|]. right. exists [], ys.
      split; [reflexivity|]. split; [now apply Hb|]. intros ? [].
    + destruct IH as (sp & Hsp & Hcase); [intros; apply Hin; now right|].
      exists sp. split; [exact Hsp|].
      assert (Hny : ~ gap_at a y) by (intros Hg; apply Hb in Hg; discriminate).
      destruct Hcase as [[-> Hnone]|(pre & post & -> & Hg & Hpre)].
      * left. split; [reflexivity|]. intros z [<-|Hz]; auto.
      * right. exists (y :: pre), post. split; [reflexivity|].
        split; [exact Hg|]. intros z [<-|Hz]; auto.
Qed.

Lemma scan_range_in_bounds (h y : Z) :
  0 <= h -> In y (scan_range h) -> 0 <= y /\ y + 5 <= h.
Proof.
  intros Hh Hy. apply in_py_range in Hy. unfold scan_start in Hy.
  pose proof (half_bounds h). lia.
Qed.

(** The split point: the first gap row of the scan range, or the height
    when the range has no gap row. *)
Lemma split_point_spec (a : list Z) (h : Z) :
  h = Z.of_nat (length a) ->
  exists sp, split_point a = Some sp /\
    ((h / 2 <= sp < h - 5 /\ gap_at a sp /\
      forall y, h / 2 <= y < sp -> ~ gap_at a y) \/
     (sp = h /\ forall y, h / 2 <= y < h - 5 -> ~ gap_at a y)).
Proof.
  intros Hh. unfold split_point. rewrite <- Hh.
  destruct (@scan_result a (scan_range h) h) as (sp & Hsp & Hcase).
  { intros y Hy. rewrite <- Hh. apply scan_range_in_bounds; [lia|assumption]. }
  exists sp. split; [exact Hsp|].
  destruct Hcase as [[-> Hnone]|(pre & post & Heq & Hg & Hpre)].
  - right. split; [reflexivity|]. intros y Hy. apply Hnone.
    apply in_py_range. exact Hy.
  - left. apply py_range_split in Heq as [-> Hrange].
    unfold scan_start in *. split; [exact Hrange|]. split; [exact Hg|].
    intros y Hy. apply Hpre. now apply in_py_range.
Qed.

Lemma visited_incl (a : list Z) (ys : list Z) (y : Z) :
  In y (visited a ys) -> In y ys.
Proof.
  induction ys as [|z ys IH]; simpl; [tauto|].
  destruct (is_gap a z) as [[|]|]; simpl; intuition.
Qed.

Lemma row_sums_length (img : image) :
  Z.of_nat (height img) = Z.of_nat (length (row_sums img)).
Proof. unfold row_sums, height. now rewrite length_map. Qed.

Lemma crop_rows_width (img : image) (sp : Z) :
  width (crop_rows img sp) = width img.
Proof. unfold crop_rows; simpl. lia. Qed.

Lemma crop_rows_rows (img : image) (sp : Z) :
  image_ok img -> rows (crop_rows img sp) = firstn (Z.to_nat sp) (rows img).
Proof.
  intros Hok. unfold crop_rows; simpl. rewrite !Nat.sub_0_r.
  rewrite <- (map_id (firstn _ _)) at 2. apply map_ext_in. intros row Hrow.
  unfold window. rewrite Nat.sub_0_r. simpl. apply firstn_all2.
  unfold image_ok in Hok. rewrite Forall_forall in Hok.
  rewrite (Hok row); [lia|]. eapply (@in_slice _ _ 0). exact Hrow.
Qed.

End SplitterFacts.

Section CoverageFacts.
Import Raster Splitter GapSpec AlphaSpec.
Local Open Scope Z_scope.

Lemma alpha_by_index (row : list pixel) :
  map (fun x => match nth_error row x with Some p => alpha p | None => 0 end)
      (seq 0 (length row))
  = map alpha row.
Proof.
  induction row as [|p row IH]; [reflexivity|].
  cbn [length seq map nth_error]. f_equal.
  rewrite <- seq_shift, map_map. exact IH.
Qed.

Lemma sum_of_zeros (T : Type) (l : list T) :
  fold_right Z.add 0 (map (fun _ => 0) l) = 0.
Proof. induction l as [|x l IH]; simpl; [reflexivity|]. now rewrite IH. Qed.

(** An entry of [row_sums] is the sum of the alpha values of the pixels
    of its row. *)
Lemma coverage_row_alpha (img : image) (y : Z) :
  image_ok img -> coverage (row_sums img) y = row_alpha img y.
Proof.
  intros Hok. unfold coverage, row_alpha, row_sums, alpha_at, pixel_at.
  destruct (nth_error (rows img) (Z.to_nat y)) as [row|] eqn:Hrow.
  - rewrite (nth_error_nth _ _ 0 (map_nth_error row_sum _ _ Hrow)).
    unfold image_ok in Hok. rewrite Forall_forall in Hok.
    rewrite <- (Hok row (nth_error_In _ _ Hrow)).
    now rewrite alpha_by_index.
  - rewrite sum_of_zeros. apply nth_overflow.
    rewrite length_map. now apply nth_error_None.
Qed.

Lemma gap_at_starts_gap (img : image) (y : Z) :
  image_ok img -> (gap_at (row_sums img) y <-> starts_gap img y).
Proof.
  intros Hok. unfold gap_at, starts_gap.
  now rewrite !coverage_row_alpha by assumption.
Qed.

End CoverageFacts.

Section SplitterClaims.
Import Raster Splitter GapSpec AlphaSpec.
Local Open Scope Z_scope.

(** C1. The splitter sums the alpha values of each row: [row_sums] has
    one entry per row, and the entry of row [y] is the sum of the alpha
    values of the pixels of that row. Its split point is the first row
    [y] of the scan range [floor(h/2) <= y < h - 5] that starts a gap:
    the alpha values of the row sum to less than 10 and those of the
    five rows [y .. y+4] to less than 50. When no row of the range
    starts a gap, the split point is the height [h]. The image is then
    cropped to the rows [0, split point), at its full width. *)
Theorem split_point_is_first_gap (img : image) :
  image_ok img ->
  let h := Z.of_nat (height img) in
  length (row_sums img) = height img /\
  (forall y : Z,
      0 <= y < h ->
      nth_error (row_sums img) (Z.to_nat y) = Some (row_alpha img y)) /\
  exists sp : Z,
    split_point (row_sums img) = Some sp /\
    ((h / 2 <= sp < h - 5 /\ starts_gap img sp /\
      forall y, h / 2 <= y < sp -> ~ starts_gap img y) \/
     (sp = h /\ forall y, h / 2 <= y < h - 5 -> ~ starts_gap img y)) /\
    split_crop img = Some (crop_rows img sp) /\
    width (crop_rows img sp) = width img /\
    rows (crop_rows img sp) = firstn (Z.to_nat sp) (rows img).
Proof.
  intros Hok h.
  assert (Hlen : length (row_sums img) = height img)
    by (unfold row_sums, height; apply length_map).
  split; [exact Hlen|]. split.
  - intros y Hy. rewrite <- coverage_row_alpha by assumption.
    unfold coverage. apply nth_error_nth'. unfold h in Hy. lia.
  - destruct (@split_point_spec (row_sums img) h (row_sums_length img))
      as (sp & Hsp & Hcase).
    exists sp. split; [exact Hsp|]. split.
    + destruct Hcase as [(Hr & Hg & Hfirst)|(-> & Hnone)].
      * left. split; [exact Hr|]. split; [now apply gap_at_starts_gap|].
        intros y Hy Hgap. apply (Hfirst y Hy). now apply gap_at_starts_gap.
      * right. split; [reflexivity|].
        intros y Hy Hgap. apply (Hnone y Hy). now apply gap_at_starts_gap.
    + split; [unfold split_crop; now rewrite Hsp|].
      split; [apply crop_rows_width|now apply crop_rows_rows].
Qed.

(** C6. The split point never exceeds the height of the image and
    never precedes [floor(height * 0.5)]. *)
Theorem split_point_bounds (img : image) :
  let h := Z.of_nat (height img) in
  exists sp : Z,
    split_point (row_sums img) = Some sp /\ h / 2 <= sp <= h.
Proof.
  intros h.
  destruct (@split_point_spec _ h (row_sums_length img)) as (sp & Hsp & Hcase).
  exists sp. split; [exact Hsp|].
  pose proof (half_bounds h). assert (0 <= h) by (unfold h; lia).
  destruct Hcase as [(Hr & _)|(-> & _)]; lia.
Qed.

(** C10. For an image of height at most 10 the scan range is empty,
    so that the split point is the height and the truncating crop gives
    the image itself. And for an image of any height, every row the loop
    visits lies in the scan range and has its window of five rows inside
    the image: [y + 4 <= h - 1]. *)
Theorem short_image_is_not_split (img : image) :
  image_ok img ->
  let h := Z.of_nat (height img) in
  (h <= 10 ->
   scan_range h = [] /\
   split_point (row_sums img) = Some h /\
   split_crop img = Some img) /\
  (forall y : Z,
      In y (visited (row_sums img) (scan_range h)) ->
      scan_start h <= y < h - 5 /\ y + 4 <= h - 1).
Proof.
  intros Hok h. split.
  - intros Hh.
    assert (Hnil : scan_range h = []).
    { unfold scan_range, scan_start. apply py_range_nil.
      pose proof (half_bounds h). lia. }
    assert (Hsp : split_point (row_sums img) = Some h).
    { unfold split_point. rewrite <- row_sums_length. fold h. now rewrite Hnil. }
    split; [exact Hnil|]. split; [exact Hsp|].
    unfold split_crop. rewrite Hsp. f_equal.
    unfold crop_rows, h. rewrite Nat2Z.id. now apply crop_full.
  - intros y Hy. apply visited_incl in Hy.
    unfold scan_range in Hy. apply in_py_range in Hy. lia.
Qed.

End SplitterClaims.

Section DriverClaims.
Import Raster Splitter Driver.

Lemma before_save_keeps_world (e : env) (w w' : world) (r : exn + image) :
  before_save e w = (w', r) -> w' = w.
Proof.
  unfold before_save, bind, load_image, enter, ret, raise.
  destruct (load e); [now intros [= <- _]|].
  destruct (fault e Keying); [now intros [= <- _]|].
  destruct (fault e FirstCrop); [now intros [= <- _]|].
  destruct (fault e Split); [now intros [= <- _]|].
  destruct (split_point _); [|now intros [= <- _]].
  destruct (fault e Truncate); [now intros [= <- _]|].
  destruct (fault e SecondCrop); now intros [= <- _].
Qed.

(** C9. No exception leaves [process_logo_high_res]: a run always
    returns normally. When the [try] block fails, at whatever step, the
    handler reports the failure by printing one line made of the word
    Error and the message of the exception. When the failure comes
    before the save step, the file at the output path is what it was
    before the run (no file, if there was none), and nothing else has
    changed but the printed line. *)
Theorem failures_are_caught (e : env) (w : world) :
  (exists w' : world, process_logo_high_res e w = (w', inr tt)) /\
  (forall (ex : exn) (w1 : world),
      try_block e w = (w1, inl ex) ->
      process_logo_high_res e w
      = (mkWorld (output_file w1) (stdout w1 ++ [("Error: " ++ message ex)%string]),
         inr tt)) /\
  (forall (ex : exn) (w1 : world),
      before_save e w = (w1, inl ex) ->
      process_logo_high_res e w
      = (mkWorld (output_file w) (stdout w ++ [("Error: " ++ message ex)%string]),
         inr tt)).
Proof.
  split; [|split].
  - unfold process_logo_high_res, try_except.
    destruct (try_block e w) as [w1 [ex|[]]]; eexists; reflexivity.
  - intros ex w1 Hfail. unfold process_logo_high_res, try_except.
    now rewrite Hfail.
  - intros ex w1 Hfail. pose proof (before_save_keeps_world _ _ Hfail) as ->.
    unfold process_logo_high_res, try_except, try_block, bind.
    now rewrite Hfail.
Qed.

End DriverClaims.

(** ** The claims at sample inputs *)

Section Witnesses.
Import Keyer Raster Splitter Driver Samples BoxSpec GapSpec.

Lemma dot_ok : image_ok dot /\ pixels_ok dot.
Proof.
  split.
  - unfold image_ok. repeat constructor.
  - unfold pixels_ok, pixel_ok, u8. repeat constructor; simpl; lia.
Qed.

Lemma banner_ok : image_ok banner.
Proof. unfold image_ok. repeat constructor. Qed.

Lemma dusk_ok : pixels_ok dusk.
Proof. unfold pixels_ok, pixel_ok, u8. repeat constructor; simpl; lia. Qed.

Lemma dusk_dark (x y : nat) (p : pixel) :
  pixel_at dusk x y = Some p -> (magnitude p <= 20)%R.
Proof.
  intros Hp. apply (@magnitude_le_iff p 20 ltac:(lia)).
  destruct y as [|[|y]]; destruct x as [|[|x]]; simpl in Hp;
    try discriminate; try (destruct x; discriminate);
    try (destruct y; discriminate);
    injection Hp as <-; vm_compute; discriminate.
Qed.

Example key_pixel_red40 : key_pixel red40 = mkPixel 40 0 0 127.
Proof. vm_compute. reflexivity. Qed.

Example getbbox_dot : getbbox dot = Some (1, 1, 2, 2).
Proof. reflexivity. Qed.

Example crop_to_content_dot : crop_to_content dot = mkImage 1 [[ink 9]].
Proof. reflexivity. Qed.

Example split_point_banner : split_point (row_sums banner) = Some 6%Z.
Proof. reflexivity. Qed.

Example split_crop_banner :
  option_map height (split_crop banner) = Some 6.
Proof. reflexivity. Qed.

(** Three runs: the input cannot be opened (the error is printed, no
    file is written); the save fails (the error is printed, the file is
    what the failed save left); a one-pixel image is keyed and saved. *)
Example run_without_input :
  process_logo_high_res
    (mkEnv (inl (Exn "No such file")) (fun _ => None) (fun img _ => (Some img, None)))
    (mkWorld None [])
  = (mkWorld None ["Error: No such file"%string], inr tt).
Proof. reflexivity. Qed.

Example run_with_failed_save :
  process_logo_high_res
    (mkEnv (inr dot) (fun _ => None) (fun _ old => (old, Some (Exn "Permission denied"))))
    (mkWorld None [])
  = (mkWorld None ["Error: Permission denied"%string], inr tt).
Proof. vm_compute. reflexivity. Qed.

Example run_on_red_dot :
  process_logo_high_res
    (mkEnv (inr (mkImage 1 [[mkPixel 200 0 0 255]])) (fun _ => None)
           (fun img _ => (Some img, None)))
    (mkWorld None [])
  = (mkWorld (Some (mkImage 1 [[mkPixel 200 0 0 255]]))
             ["Processed high-res logo to C:\Users\aitor\.gemini\antigravity\scratch\medical-notes-app\src\assets\logo.png"%string],
     inr tt).
Proof. vm_compute. reflexivity. Qed.

Lemma split_point_is_first_gap_witness :
  nth_error (row_sums banner) 6 = Some (AlphaSpec.row_alpha banner 6) /\
  exists sp : Z,
    split_point (row_sums banner) = Some sp /\
    split_crop banner = Some (crop_rows banner sp) /\
    rows (crop_rows banner sp) = firstn (Z.to_nat sp) (rows banner).
Proof.
  destruct (split_point_is_first_gap banner_ok)
    as (_ & Hsums & sp & Hsp & _ & Hcrop & _ & Hrows).
  split.
  - apply (Hsums 6%Z). unfold height. simpl. lia.
  - exists sp. repeat split; assumption.
Defined.

Lemma getbbox_minimal_alpha_box_witness :
  getbbox dot = Some (1, 1, 2, 2) /\
  encloses dot (1, 1, 2, 2) /\
  (forall b' : box, encloses dot b' -> box_within (1, 1, 2, 2) b').
Proof.
  destruct (getbbox_minimal_alpha_box (proj1 dot_ok)) as [Hbox _].
  change (getbbox dot) with (Some (1, 1, 2, 2)) in Hbox.
  destruct Hbox as (_ & Henc & Hmin & _).
  split; [reflexivity|]. split; assumption.
Defined.

Lemma dark_image_is_not_cropped_witness :
  getbbox (key_image dusk) = None /\
  crop_to_content (key_image dusk) = key_image dusk.
Proof.
  destruct (dark_image_is_not_cropped dusk_ok dusk_dark)
    as (_ & Hnone & Hsame & _).
  split; assumption.
Defined.

Lemma crop_to_content_idempotent_witness :
  crop_to_content (crop_to_content dot) = crop_to_content dot.
Proof. exact (crop_to_content_idempotent (proj1 dot_ok)). Defined.

Lemma key_image_keeps_colour_witness :
  exists q : pixel,
    pixel_at (key_image dot) 1 1 = Some q /\
    red q = 0%Z /\ green q = 0%Z /\ blue q = 0%Z.
Proof.
  exact (@key_image_keeps_colour dot 1 1 (ink 9) (proj2 dot_ok) eq_refl).
Defined.

Lemma failures_are_caught_witness :
  process_logo_high_res
    (mkEnv (inr dot) (fun s => match s with Split => Some (Exn "out of memory") | _ => None end)
           (fun img _ => (Some img, None)))
    (mkWorld (Some banner) [])
  = (mkWorld (Some banner) ["Error: out of memory"%string], inr tt).
Proof.
  refine (proj2 (proj2 (failures_are_caught _ _))
            (Exn "out of memory") (mkWorld (Some banner) []) _).
  reflexivity.
Defined.

Lemma short_image_is_not_split_witness :
  scan_range 3 = [] /\
  split_point (row_sums dot) = Some 3%Z /\
  split_crop dot = Some dot.
Proof.
  destruct (short_image_is_not_split (proj1 dot_ok)) as [Hshort _].
  apply Hshort. simpl. lia.
Defined.

End Witnesses.

(** * Further properties *)

(** ** More on the keyer *)

Section KeyerExtras.
Import Keyer Raster.

Lemma ramp_value (p : pixel) :
  (20 < magnitude p < 60)%R ->
  ramp (sq_sum p) = Int_part (255 * (magnitude p - 20) / 40).
Proof.
  intros [Hlo Hhi].
  apply (@magnitude_lt_iff p 20 ltac:(lia)) in Hlo.
  apply (@magnitude_gt_iff p 60 ltac:(lia)) in Hhi.
  unfold magnitude. apply ramp_is_floor. lia.
Qed.

(** X1. A keyed pixel is fully opaque exactly when the magnitude of its
    colour is at least 60. *)
Theorem key_alpha_opaque_iff (p : pixel) :
  pixel_ok p ->
  (alpha (key_pixel p) = 255%Z <-> (60 <= magnitude p)%R).
Proof.
  intros Hp. rewrite key_alpha_ramp by assumption.
  rewrite (@magnitude_ge_iff p 60 ltac:(lia)). unfold ramp.
  destruct (Z.leb_spec (sq_sum p) 400); [split; [discriminate|lia]|].
  destruct (Z.leb_spec 3600 (sq_sum p)); [split; [lia|reflexivity]|].
  pose proof (@ramp_mid_bounds (sq_sum p) ltac:(lia)). split; lia.
Qed.

(** X2. A keyed pixel is fully transparent exactly when the ramp value
    [255 * (magnitude - 20) / 40] is below 1, that is when the magnitude
    is below [20 + 40/255]: a little more than the lower bound 20. *)
Theorem key_alpha_transparent_iff (p : pixel) :
  pixel_ok p ->
  (alpha (key_pixel p) = 0%Z <-> (255 * (magnitude p - 20) / 40 < 1)%R).
Proof.
  intros Hp. rewrite key_alpha_ramp by assumption.
  destruct (Rle_or_lt (magnitude p) 20) as [Hlow|Hlo].
  - pose proof Hlow as Hs. apply (@magnitude_le_iff p 20 ltac:(lia)) in Hs.
    unfold ramp. destruct (Z.leb_spec (sq_sum p) 400); [|lia].
    split; [intros _; lra|reflexivity].
  - destruct (Rle_or_lt 60 (magnitude p)) as [Hhigh|Hhi].
    + pose proof Hhigh as Hs. apply (@magnitude_ge_iff p 60 ltac:(lia)) in Hs.
      unfold ramp. destruct (Z.leb_spec (sq_sum p) 400); [lia|].
      destruct (Z.leb_spec 3600 (sq_sum p)); [|lia].
      split; [discriminate|intros; lra].
    + rewrite ramp_value by (split; assumption).
      set (v := (255 * (magnitude p - 20) / 40)%R).
      assert (Hv : (0 < v)%R) by (unfold v; lra).
      pose proof (base_Int_part v) as [Hb1 Hb2].
      split.
      * intros H0. rewrite H0 in Hb2. lra.
      * intros H1. symmetry. apply Int_part_spec. lra.
Qed.

(** X3. Over all colours the keyed alpha does not decrease when the
    magnitude grows. *)
Theorem key_alpha_monotone (p q : pixel) :
  pixel_ok p -> pixel_ok q ->
  (magnitude p <= magnitude q)%R ->
  (alpha (key_pixel p) <= alpha (key_pixel q))%Z.
Proof.
  intros Hp Hq Hle. rewrite !key_alpha_ramp by assumption.
  apply ramp_monotone.
  pose proof (magnitude_nonneg p) as Hp0.
  pose proof (magnitude_sqr p) as Hpp.
  pose proof (magnitude_sqr q) as Hqq.
  apply le_IZR. rewrite <- Hpp, <- Hqq. nra.
Qed.

Lemma key_image_pixels_ok (img : image) :
  pixels_ok img -> pixels_ok (key_image img).
Proof.
  unfold pixels_ok, key_image; simpl. intros Hok.
  rewrite Forall_map. eapply Forall_impl; [|exact Hok].
  intros row Hrow. rewrite Forall_map.
  eapply Forall_impl; [|exact Hrow]. intros p. apply key_pixel_ok.
Qed.

(** X4. Keying keeps an image well formed: the same width and height,
    rows of the full width, and every channel, the new alpha included,
    an 8-bit value, so that the cast to [uint8] never meets a value it
    cannot hold. *)
Theorem key_image_well_formed (img : image) :
  image_ok img -> pixels_ok img ->
  image_ok (key_image img) /\ pixels_ok (key_image img) /\
  width (key_image img) = width img /\ height (key_image img) = height img.
Proof.
  intros Hi Hp. split; [now apply key_image_ok|].
  split; [now apply key_image_pixels_ok|]. apply key_image_size.
Qed.

Lemma key_pixel_twice (p : pixel) :
  pixel_ok p -> key_pixel (key_pixel p) = key_pixel p.
Proof.
  intros Hp. pose proof (key_pixel_ok Hp) as Hk.
  rewrite (key_pixel_closed_form Hk).
  rewrite (key_pixel_closed_form Hp). reflexivity.
Qed.

(** X5. The keyer reads the colour only: the alpha of the input is
    discarded, and keying an image a second time changes nothing. *)
Theorem key_image_idempotent (img : image) :
  pixels_ok img ->
  key_image (key_image img) = key_image img /\
  (forall img' : image,
      pixels_ok img' -> width img' = width img ->
      map (map (fun p => (red p, green p, blue p))) (rows img')
      = map (map (fun p => (red p, green p, blue p))) (rows img) ->
      key_image img' = key_image img).
Proof.
  intros Hok. split.
  - unfold key_image; simpl. f_equal. rewrite map_map.
    apply map_ext_in. intros row Hrow. rewrite map_map.
    apply map_ext_in. intros p Hp. apply key_pixel_twice.
    unfold pixels_ok in Hok. rewrite Forall_forall in Hok.
    specialize (Hok _ Hrow). rewrite Forall_forall in Hok. now apply Hok.
  - intros img' Hok' Hw Hcol. unfold key_image. rewrite Hw. f_equal.
    unfold pixels_ok in *. revert Hok Hok' Hcol.
    generalize (rows img) as rs, (rows img') as rs'.
    induction rs as [|row rs IH]; intros [|row' rs'] Hok Hok' Hcol;
      simpl in *; try discriminate; [reflexivity|].
    injection Hcol as Hrow Hrest.
    inversion Hok as [|? ? Hr Hrs]; inversion Hok' as [|? ? Hr' Hrs']; subst.
    f_equal; [|now apply IH].
    clear - Hr Hr' Hrow. revert row' Hr' Hrow.
    induction row as [|p row IH]; intros [|p' row'] Hr' Hrow;
      simpl in *; try discriminate; [reflexivity|].
    injection Hrow as Hred Hgreen Hblue Hrest.
    inversion Hr; inversion Hr'; subst.
    f_equal; [|now apply IH].
    rewrite !key_pixel_closed_form by assumption.
    unfold sq_sum. now rewrite Hred, Hgreen, Hblue.
Qed.

End KeyerExtras.

(** ** More on the splitter *)

Section SplitterExtras.
Import Raster Splitter GapSpec.
Local Open Scope Z_scope.

Lemma is_gap_value (a : list Z) (y : Z) :
  0 <= y -> y + 5 <= Z.of_nat (length a) ->
  is_gap a y
  = Some (if coverage a y <? 10
          then coverage a y + coverage a (y + 1) + coverage a (y + 2)
               + coverage a (y + 3) + coverage a (y + 4) <? 50
          else false).
Proof.
  intros Hy Hlen. unfold is_gap.
  rewrite item_in_range by lia. now rewrite window_sum by assumption.
Qed.

Lemma scan_ext (a b : list Z) (ys : list Z) (sp0 : Z) :
  (forall y, In y ys -> is_gap a y = is_gap b y) ->
  scan a ys sp0 = scan b ys sp0.
Proof.
  induction ys as [|y ys IH]; intros Heq; simpl; [reflexivity|].
  rewrite (Heq y (or_introl eq_refl)).
  destruct (is_gap b y) as [[|]|]; try reflexivity.
  apply IH. intros z Hz. apply Heq. now right.
Qed.

(** X6. The split point is read off the lower half of the coverage
    profile: two profiles of the same length that agree from row
    [floor(h/2)] on have the same split point, whatever the rows above
    hold. *)
Theorem split_point_reads_lower_half (a b : list Z) :
  length a = length b ->
  (forall y : Z,
      Z.of_nat (length a) / 2 <= y < Z.of_nat (length a) ->
      coverage a y = coverage b y) ->
  split_point a = split_point b.
Proof.
  intros Hlen Hsame. unfold split_point. rewrite <- Hlen.
  set (h := Z.of_nat (length a)) in *.
  apply scan_ext. intros y Hy.
  pose proof (@scan_range_in_bounds h y ltac:(unfold h; lia) Hy) as [Hy0 Hy5].
  apply in_py_range in Hy. unfold scan_start in Hy.
  rewrite (@is_gap_value a y) by (fold h; lia).
  rewrite (@is_gap_value b y) by (rewrite <- ?Hlen; fold h; lia).
  now rewrite !Hsame by lia.
Qed.

(** X7. A cut needs room: when the split point is not the height, the
    profile has at least 11 rows, at least 5 rows are kept and at least
    6 rows are dropped. *)
Theorem split_point_cut_bounds (a : list Z) (sp : Z) :
  split_point a = Some sp ->
  sp <> Z.of_nat (length a) ->
  11 <= Z.of_nat (length a) /\ 5 <= sp /\ sp + 6 <= Z.of_nat (length a).
Proof.
  intros Hsp Hcut.
  destruct (@split_point_spec a _ eq_refl) as (sp' & Hsp' & Hcase).
  rewrite Hsp in Hsp'. injection Hsp' as <-.
  pose proof (half_bounds (Z.of_nat (length a))).
  destruct Hcase as [(Hr & _)|(-> & _)]; [lia|contradiction].
Qed.

Lemma row_sum_bounds (row : list pixel) :
  Forall pixel_ok row -> 0 <= row_sum row <= 255 * Z.of_nat (length row).
Proof.
  unfold row_sum. induction 1 as [|p row Hp _ IH]; simpl; [lia|].
  destruct Hp as (_ & _ & _ & Ha). unfold u8 in Ha. lia.
Qed.

Lemma coverage_row (img : image) (y : Z) :
  coverage (row_sums img) y = 0 \/
  exists row, In row (rows img) /\ coverage (row_sums img) y = row_sum row.
Proof.
  unfold coverage, row_sums.
  destruct (Nat.lt_ge_cases (Z.to_nat y) (length (rows img))) as [Hlt|Hge].
  - right. exists (nth (Z.to_nat y) (rows img) []).
    split; [now apply nth_In|].
    change 0 with (row_sum []). apply map_nth.
  - left. apply nth_overflow. now rewrite length_map.
Qed.

(** X8. The coverage of a row lies between 0 and 255 times the width,
    and the sum over a window of five rows is at most 1275 times the
    width: for an image of fewer than 2^31 columns it stays below 2^42,
    far from the range of a 64-bit word or of the integers a binary64
    holds exactly. *)
Theorem coverage_bounds (img : image) (y : Z) :
  image_ok img -> pixels_ok img ->
  0 <= coverage (row_sums img) y <= 255 * Z.of_nat (width img) /\
  (Z.of_nat (width img) < 2 ^ 31 ->
   coverage (row_sums img) y + coverage (row_sums img) (y + 1)
   + coverage (row_sums img) (y + 2) + coverage (row_sums img) (y + 3)
   + coverage (row_sums img) (y + 4) < 2 ^ 42).
Proof.
  intros Hi Hp.
  assert (Hb : forall z, 0 <= coverage (row_sums img) z <= 255 * Z.of_nat (width img)).
  { intros z. destruct (coverage_row img z) as [->|(row & Hrow & ->)]; [lia|].
    unfold image_ok in Hi. unfold pixels_ok in Hp. rewrite Forall_forall in Hi, Hp.
    rewrite <- (Hi _ Hrow). apply row_sum_bounds. now apply Hp. }
  split; [apply Hb|]. intros Hw.
  pose proof (Hb y). pose proof (Hb (y + 1)). pose proof (Hb (y + 2)).
  pose proof (Hb (y + 3)). pose proof (Hb (y + 4)).
  change (2 ^ 42) with 4398046511104. change (2 ^ 31) with 2147483648 in Hw. lia.
Qed.

End SplitterExtras.

(** ** The image that is saved *)

Section PipelineFacts.
Import Keyer Raster Splitter Pipeline SubImage BoxSpec GapSpec.

Lemma shows_trans (a b c : image) (dx dy dx' dy' : nat) :
  shows a b dx dy -> shows b c dx' dy' -> shows a c (dx' + dx) (dy' + dy).
Proof.
  intros (Hw & Hh & Hp) (Hw' & Hh' & Hp'). repeat split; try lia.
  intros x y Hx Hy. rewrite Hp by assumption. rewrite Hp' by lia.
  f_equal; lia.
Qed.

Lemma shows_refl (a : image) : shows a a 0 0.
Proof. repeat split; simpl; try lia. Qed.

Lemma crop_shows (img : image) (x0 y0 x1 y1 : nat) :
  x0 <= x1 <= width img -> y0 <= y1 <= height img ->
  shows (crop img (x0, y0, x1, y1)) img x0 y0.
Proof.
  intros Hx Hy. unfold shows.
  rewrite crop_height by lia. simpl width.
  repeat split; try lia.
  intros x y Hx' Hy'. now apply pixel_at_crop.
Qed.

Lemma crop_to_content_shows (img : image) :
  image_ok img -> exists dx dy, shows (crop_to_content img) img dx dy.
Proof.
  intros Hok. unfold crop_to_content.
  destruct (getbbox img) as [[[[x0 y0] x1] y1]|] eqn:Hb.
  - pose proof (getbbox_bounds Hok Hb). exists x0, y0. apply crop_shows; lia.
  - exists 0, 0. apply shows_refl.
Qed.

Lemma crop_to_content_ok (img : image) :
  image_ok img -> image_ok (crop_to_content img).
Proof.
  intros Hok. unfold crop_to_content.
  destruct (getbbox img) as [[[[x0 y0] x1] y1]|] eqn:Hb; [|assumption].
  pose proof (getbbox_bounds Hok Hb). apply crop_ok; [assumption|lia].
Qed.

Lemma crop_rows_ok (img : image) (sp : Z) :
  image_ok img -> image_ok (crop_rows img sp).
Proof. intros Hok. unfold crop_rows. apply crop_ok; [assumption|lia]. Qed.

Lemma crop_rows_height (img : image) (sp : Z) :
  (0 <= sp <= Z.of_nat (height img))%Z ->
  height (crop_rows img sp) = Z.to_nat sp.
Proof.
  intros Hsp. unfold crop_rows. rewrite crop_height by lia. lia.
Qed.

Lemma crop_rows_shows (img : image) (sp : Z) :
  (0 <= sp <= Z.of_nat (height img))%Z -> shows (crop_rows img sp) img 0 0.
Proof. intros Hsp. unfold crop_rows. apply crop_shows; lia. Qed.

(** The scan never raises, and its split point lies between half the
    height and the height. *)
Lemma split_point_total (img : image) :
  exists sp : Z,
    split_point (row_sums img) = Some sp /\
    (Z.of_nat (height img) / 2 <= sp <= Z.of_nat (height img))%Z /\
    (0 < height img -> (0 < sp)%Z).
Proof.
  destruct (@split_point_spec _ _ (row_sums_length img)) as (sp & Hsp & Hcase).
  exists sp. split; [exact Hsp|].
  pose proof (half_bounds (Z.of_nat (height img))).
  destruct Hcase as [(Hr & _)|(-> & _)]; lia.
Qed.

Lemma crop_to_content_tight (img : image) :
  image_ok img ->
  let out := crop_to_content img in
  getbbox out = None \/ getbbox out = Some (0, 0, width out, height out).
Proof.
  intros Hok out. unfold out, crop_to_content.
  destruct (getbbox img) as [b|] eqn:Hb.
  - right. now apply getbbox_crop_full.
  - left. exact Hb.
Qed.

Lemma crop_to_content_nonempty (img : image) :
  image_ok img -> 0 < width img -> 0 < height img ->
  0 < width (crop_to_content img) /\ 0 < height (crop_to_content img).
Proof.
  intros Hok Hw Hh. unfold crop_to_content.
  destruct (getbbox img) as [[[[x0 y0] x1] y1]|] eqn:Hb; [|now split].
  pose proof (getbbox_bounds Hok Hb). rewrite crop_height by lia.
  simpl. lia.
Qed.

(** X9. The pipeline only keys and crops: it never raises, and the
    image it hands to [save] is a rectangle of the keyed input, no wider
    and no higher than the input, every pixel with the colour it has in
    the input. *)
Theorem extract_shows_keyed_input (img : image) :
  image_ok img ->
  exists (out : image) (dx dy : nat),
    extract img = Some out /\
    shows out (key_image img) dx dy /\
    width out <= width img /\ height out <= height img.
Proof.
  intros Hok. unfold extract. cbv zeta.
  pose proof (key_image_ok Hok) as Hk.
  set (keyed := key_image img) in *.
  pose proof (crop_to_content_ok Hk) as Hc1.
  destruct (crop_to_content_shows Hk) as (dx1 & dy1 & S1).
  set (new_img := crop_to_content keyed) in *.
  destruct (split_point_total new_img) as (sp & -> & Hsp & _).
  assert (Hsp0 : (0 <= sp <= Z.of_nat (height new_img))%Z).
  { pose proof (half_bounds (Z.of_nat (height new_img))). lia. }
  pose proof (crop_rows_shows new_img Hsp0) as S2.
  destruct (crop_to_content_shows (crop_rows_ok sp Hc1)) as (dx3 & dy3 & S3).
  pose proof (shows_trans (shows_trans S3 S2) S1) as S.
  eexists _, _, _. split; [reflexivity|]. split; [exact S|].
  destruct S as (Hw & Hh & _).
  pose proof (key_image_size img) as [Hkw Hkh]. fold keyed in Hkw, Hkh. lia.
Qed.

(** X10. An input with at least one pixel gives an output with at least
    one pixel: [save] is never handed an empty image. *)
Theorem extract_nonempty (img : image) :
  image_ok img -> 0 < width img -> 0 < height img ->
  exists out : image,
    extract img = Some out /\ 0 < width out /\ 0 < height out.
Proof.
  intros Hok Hw Hh. unfold extract. cbv zeta.
  pose proof (key_image_ok Hok) as Hk.
  pose proof (key_image_size img) as [Hkw Hkh].
  set (keyed := key_image img) in *.
  pose proof (crop_to_content_ok Hk) as Hc1.
  destruct (@crop_to_content_nonempty keyed Hk ltac:(lia) ltac:(lia)) as [Hw1 Hh1].
  set (new_img := crop_to_content keyed) in *.
  destruct (split_point_total new_img) as (sp & -> & Hsp & Hpos).
  eexists. split; [reflexivity|].
  apply crop_to_content_nonempty.
  - now apply crop_rows_ok.
  - now rewrite crop_rows_width.
  - rewrite crop_rows_height by (pose proof (half_bounds (Z.of_nat (height new_img))); lia).
    specialize (Hpos ltac:(lia)). lia.
Qed.

(** X11. The output is rectangular and tight: either it has no visible
    pixel at all, or its bounding box is the whole of it, so that no
    transparent border is left. *)
Theorem extract_is_tight (img : image) (out : image) :
  image_ok img ->
  extract img = Some out ->
  image_ok out /\
  (getbbox out = None \/ getbbox out = Some (0, 0, width out, height out)).
Proof.
  intros Hok. unfold extract. cbv zeta.
  pose proof (crop_to_content_ok (key_image_ok Hok)) as Hc1.
  destruct (split_point (row_sums (crop_to_content (key_image img)))) as [sp|];
    [|discriminate].
  intros [= <-]. pose proof (crop_rows_ok sp Hc1) as Hc2.
  split; [now apply crop_to_content_ok|now apply crop_to_content_tight].
Qed.

End PipelineFacts.

(** ** Images without a visible pixel *)

Section BlankFacts.
Import Keyer Raster Splitter Pipeline SubImage BoxSpec GapSpec.

Lemma pixel_at_in_bounds (img : image) (x y : nat) (p : pixel) :
  image_ok img -> pixel_at img x y = Some p ->
  x < width img /\ y < height img.
Proof.
  unfold pixel_at, image_ok, height. intros Hok Hat.
  destruct (nth_error (rows img) y) as [row|] eqn:Hrow; [|discriminate].
  rewrite Forall_forall in Hok.
  rewrite <- (Hok row (nth_error_In _ _ Hrow)). split.
  - apply nth_error_Some. congruence.
  - apply nth_error_Some. congruence.
Qed.

Lemma blank_getbbox (img : image) : blank img -> getbbox img = None.
Proof.
  intros Hb. apply getbbox_none_iff. intros x y (q & Hq & Ha).
  apply Ha. eapply Hb; eauto.
Qed.

Lemma blank_crop_to_content (img : image) :
  blank img -> crop_to_content img = img.
Proof. intros Hb. unfold crop_to_content. now rewrite blank_getbbox. Qed.

Lemma blank_row_sum (img : image) (row : list pixel) :
  blank img -> In row (rows img) -> row_sum row = 0%Z.
Proof.
  intros Hb Hrow. apply In_nth_error in Hrow as (y & Hy).
  assert (Hall : forall p, In p row -> alpha p = 0%Z).
  { intros p Hp. apply In_nth_error in Hp as (x & Hx).
    apply (Hb x y). unfold pixel_at. now rewrite Hy. }
  clear Hy. unfold row_sum.
  induction row as [|p row IH]; simpl; [reflexivity|].
  rewrite (Hall p (or_introl eq_refl)), IH; [reflexivity|].
  intros q Hq. apply Hall. now right.
Qed.

Lemma blank_coverage (img : image) (y : Z) :
  blank img -> coverage (row_sums img) y = 0%Z.
Proof.
  intros Hb. destruct (coverage_row img y) as [H|(row & Hrow & ->)];
    [assumption|]. eapply blank_row_sum; eauto.
Qed.

Lemma blank_crop_rows (img : image) (sp : Z) :
  image_ok img -> blank img -> blank (crop_rows img sp).
Proof.
  intros Hok Hb x y q Hq.
  pose proof (pixel_at_in_bounds _ _ (crop_rows_ok sp Hok) Hq) as [Hx Hy].
  unfold crop_rows in *. simpl width in Hx.
  assert (Hy' : y < Z.to_nat sp - 0).
  { unfold height in Hy. simpl in Hy.
    rewrite length_map, length_firstn in Hy. lia. }
  rewrite pixel_at_crop in Hq by lia. eapply Hb; eauto.
Qed.

Lemma dark_keyed_blank (img : image) :
  pixels_ok img ->
  (forall x y p, pixel_at img x y = Some p -> (magnitude p <= 20)%R) ->
  blank (key_image img).
Proof.
  intros Hok Hdark x y q Hq. rewrite pixel_at_key_image in Hq.
  destruct (pixel_at img x y) as [p|] eqn:Hp; [|discriminate].
  injection Hq as <-.
  apply key_alpha_low; [exact (@pixel_at_ok img x y p Hok Hp)|].
  eapply Hdark; eauto.
Qed.

Lemma blank_split_point (img : image) :
  blank img -> (11 <= Z.of_nat (height img))%Z ->
  split_point (row_sums img) = Some (Z.of_nat (height img) / 2)%Z.
Proof.
  intros Hb Hh.
  destruct (@split_point_spec _ _ (row_sums_length img)) as (sp & Hsp & Hcase).
  rewrite Hsp. f_equal.
  assert (Hgap : forall y, gap_at (row_sums img) y).
  { intros y. unfold gap_at. rewrite !blank_coverage by assumption. lia. }
  pose proof (half_bounds (Z.of_nat (height img))) as Hhalf.
  destruct Hcase as [(Hr & _ & Hfirst)|(_ & Hnone)].
  - destruct (Z.eq_dec sp (Z.of_nat (height img) / 2)) as [|Hne]; [assumption|].
    exfalso. apply (Hfirst (Z.of_nat (height img) / 2)%Z); [lia|apply Hgap].
  - exfalso. apply (Hnone (Z.of_nat (height img) / 2)%Z); [lia|apply Hgap].
Qed.

Lemma short_split_point (img : image) :
  (Z.of_nat (height img) <= 10)%Z ->
  split_point (row_sums img) = Some (Z.of_nat (height img)).
Proof.
  intros Hh. unfold split_point. rewrite <- row_sums_length.
  unfold scan_range, scan_start. rewrite py_range_nil; [reflexivity|].
  pose proof (half_bounds (Z.of_nat (height img))). lia.
Qed.

Lemma crop_rows_full (img : image) :
  image_ok img -> crop_rows img (Z.of_nat (height img)) = img.
Proof.
  intros Hok. unfold crop_rows. rewrite Nat2Z.id. now apply crop_full.
Qed.

(** X12. An input whose colours all have a magnitude of at most 20 is
    keyed to a fully transparent image. With at most 10 rows it is saved
    as it is; with 11 rows or more the scan finds its gap at the first
    row it visits, and what is saved is the upper half only: the rows
    [0, floor(h/2)), at full width. *)
Theorem dark_image_is_halved (img : image) :
  image_ok img -> pixels_ok img ->
  (forall x y p, pixel_at img x y = Some p -> (magnitude p <= 20)%R) ->
  let h := Z.of_nat (height img) in
  let keyed := key_image img in
  ((h <= 10)%Z -> extract img = Some keyed) /\
  ((11 <= h)%Z ->
   extract img = Some (crop_rows keyed (h / 2)) /\
   width (crop_rows keyed (h / 2)) = width img /\
   height (crop_rows keyed (h / 2)) = Z.to_nat (h / 2)).
Proof.
  intros Hok Hpx Hdark h keyed.
  pose proof (dark_keyed_blank Hpx Hdark) as Hb. fold keyed in Hb.
  pose proof (key_image_ok Hok) as Hk. fold keyed in Hk.
  pose proof (key_image_size img) as [Hkw Hkh]. fold keyed in Hkw, Hkh.
  assert (Hh : Z.of_nat (height keyed) = h) by (unfold h; now rewrite Hkh).
  unfold extract. fold keyed. cbv zeta.
  rewrite (blank_crop_to_content Hb).
  pose proof (half_bounds h) as Hhalf.
  split; intros Hcase.
  - rewrite short_split_point by lia. rewrite crop_rows_full by assumption.
    now rewrite (blank_crop_to_content Hb).
  - rewrite blank_split_point by (assumption || lia). rewrite Hh.
    rewrite (blank_crop_to_content (blank_crop_rows (h / 2) Hk Hb)).
    split; [reflexivity|]. split.
    + now rewrite crop_rows_width.
    + apply crop_rows_height. lia.
Qed.

End BlankFacts.

(** ** More on the driver *)

Section DriverExtras.
Import Raster Splitter Pipeline Driver.

Lemma before_save_extract (e : env) (w : world) (img : image) :
  load e = inr img -> (forall s, fault e s = None) ->
  before_save e w
  = (w, match extract img with
        | Some out => inr out
        | None => inl index_error
        end).
Proof.
  intros Hload Hfault.
  unfold before_save, bind, load_image, enter, ret, raise, extract.
  rewrite Hload, !Hfault.
  destruct (split_point _); reflexivity.
Qed.

Lemma extract_total (img : image) : exists out, extract img = Some out.
Proof.
  unfold extract. cbv zeta.
  destruct (split_point_total (crop_to_content (key_image img))) as (sp & -> & _). eexists. reflexivity.
Qed.

(** X13. A run that loads its image and meets no fault calls [save]
    once, on the extracted image: the file it leaves is the file at the
    output path afterwards, and the one line printed is the success line
    (the text of line 59 followed by the value of [output_path]) when
    [save] returns, and the error line when it raises. *)
Theorem loaded_run_saves_extract (e : env) (w : world) (img : image) :
  load e = inr img -> (forall s, fault e s = None) ->
  exists out : image,
    extract img = Some out /\
    process_logo_high_res e w
    = (mkWorld (fst (save e out (output_file w)))
               (stdout w ++
                [match snd (save e out (output_file w)) with
                 | None => ("Processed high-res logo to " ++ output_path)%string
                 | Some ex => ("Error: " ++ message ex)%string
                 end]),
       inr tt).
Proof.
  intros Hload Hfault. destruct (extract_total img) as (out & Hout).
  exists out. split; [exact Hout|].
  unfold process_logo_high_res, try_except, try_block, bind.
  rewrite (@before_save_extract e w img Hload Hfault), Hout.
  unfold save_image. destruct (save e out (output_file w)) as [file [ex|]];
    reflexivity.
Qed.

(** X14. Whatever happens, a run prints exactly one line, and the file
    at the output path afterwards is either the one that was there
    before or the one a call of [save] left. *)
Theorem run_prints_one_line (e : env) (w : world) :
  let w' := fst (process_logo_high_res e w) in
  (exists line : string, stdout w' = stdout w ++ [line]) /\
  (output_file w' = output_file w \/
   exists out : image, output_file w' = fst (save e out (output_file w))).
Proof.
  unfold process_logo_high_res, try_except, try_block, bind.
  destruct (before_save e w) as [w1 [ex|out]] eqn:Hb;
    pose proof (before_save_keeps_world _ _ Hb) as ->; simpl.
  - split; [eexists; reflexivity|now left].
  - unfold save_image. destruct (save e out (output_file w)) as [file [ex|]] eqn:Hs;
      simpl; (split; [eexists; reflexivity|right; exists out; now rewrite Hs]).
Qed.

End DriverExtras.

(** ** Images without a transparent pixel *)

Section SolidFacts.
Import Keyer Raster Splitter Pipeline SubImage BoxSpec GapSpec.

Lemma pixel_at_exists (img : image) (x y : nat) :
  image_ok img -> x < width img -> y < height img ->
  exists p, pixel_at img x y = Some p.
Proof.
  unfold pixel_at, image_ok, height. intros Hok Hx Hy.
  destruct (nth_error (rows img) y) as [row|] eqn:Hrow.
  - rewrite Forall_forall in Hok.
    pose proof (Hok row (nth_error_In _ _ Hrow)) as Hlen.
    destruct (nth_error row x) as [p|] eqn:Hp; [now exists p|].
    apply nth_error_None in Hp. lia.
  - apply nth_error_None in Hrow. lia.
Qed.

Lemma solid_visible_at (img : image) (x y : nat) :
  image_ok img -> solid img -> x < width img -> y < height img ->
  visible_at img x y.
Proof.
  intros Hok Hs Hx Hy. destruct (pixel_at_exists Hok Hx Hy) as (p & Hp).
  exists p. split; [assumption|]. rewrite (Hs _ _ _ Hp). discriminate.
Qed.

Lemma solid_getbbox (img : image) :
  image_ok img -> solid img -> 0 < width img -> 0 < height img ->
  getbbox img = Some (0, 0, width img, height img).
Proof.
  intros Hok Hs Hw Hh.
  pose proof (@solid_visible_at img 0 0 Hok Hs Hw Hh) as H00.
  pose proof (@solid_visible_at img (width img - 1) (height img - 1) Hok Hs
                ltac:(lia) ltac:(lia)) as H11.
  apply edges_enclose in H00, H11.
  pose proof (right_edge_le_width Hok).
  pose proof (trail_le has_data (rows img)) as Hth. fold (height img) in Hth.
  apply getbbox_some_iff. split.
  - apply trail_pos_iff. lia.
  - repeat f_equal; lia.
Qed.

Lemma solid_crop_to_content (img : image) :
  image_ok img -> solid img -> 0 < width img -> 0 < height img ->
  crop_to_content img = img.
Proof.
  intros Hok Hs Hw Hh. unfold crop_to_content.
  rewrite solid_getbbox by assumption. now apply crop_full.
Qed.

Lemma solid_row_sum (img : image) (row : list pixel) :
  solid img -> In row (rows img) ->
  row_sum row = (255 * Z.of_nat (length row))%Z.
Proof.
  intros Hs Hrow. apply In_nth_error in Hrow as (y & Hy).
  assert (Hall : forall p, In p row -> alpha p = 255%Z).
  { intros p Hp. apply In_nth_error in Hp as (x & Hx).
    apply (Hs x y). unfold pixel_at. now rewrite Hy. }
  clear Hy. unfold row_sum.
  induction row as [|p row IH]; [reflexivity|].
  cbn [map fold_right length].
  rewrite (Hall p (or_introl eq_refl)), IH; [lia|].
  intros q Hq. apply Hall. now right.
Qed.

Lemma solid_no_gap (img : image) (y : Z) :
  image_ok img -> solid img -> 0 < width img ->
  (0 <= y < Z.of_nat (height img))%Z -> ~ gap_at (row_sums img) y.
Proof.
  intros Hok Hs Hw Hy [Hcov _].
  unfold coverage, row_sums in Hcov.
  rewrite (nth_indep _ 0%Z (row_sum [])) in Hcov
    by (rewrite length_map; unfold height in Hy; lia).
  rewrite map_nth in Hcov.
  assert (Hin : In (nth (Z.to_nat y) (rows img) []) (rows img))
    by (apply nth_In; unfold height in Hy; lia).
  rewrite (solid_row_sum _ Hs Hin) in Hcov.
  unfold image_ok in Hok. rewrite Forall_forall in Hok.
  rewrite (Hok _ Hin) in Hcov. lia.
Qed.

Lemma solid_split_point (img : image) :
  image_ok img -> solid img -> 0 < width img ->
  split_point (row_sums img) = Some (Z.of_nat (height img)).
Proof.
  intros Hok Hs Hw.
  destruct (@split_point_spec _ _ (row_sums_length img)) as (sp & Hsp & Hcase).
  rewrite Hsp. f_equal.
  pose proof (half_bounds (Z.of_nat (height img))) as Hhalf.
  destruct Hcase as [(Hr & Hgap & _)|(-> & _)]; [|reflexivity].
  exfalso. apply (@solid_no_gap img sp Hok Hs Hw); [lia|assumption].
Qed.

Lemma bright_keyed_solid (img : image) :
  pixels_ok img ->
  (forall x y p, pixel_at img x y = Some p -> (60 <= magnitude p)%R) ->
  solid (key_image img).
Proof.
  intros Hok Hbright x y q Hq. rewrite pixel_at_key_image in Hq.
  destruct (pixel_at img x y) as [p|] eqn:Hp; [|discriminate].
  injection Hq as <-.
  apply key_alpha_high; [exact (@pixel_at_ok img x y p Hok Hp)|].
  eapply Hbright; eauto.
Qed.

(** X15. An input whose colours all have a magnitude of at least 60 goes
    through whole: it is keyed to a fully opaque image, neither crop
    removes anything and the scan finds no gap, so that what is saved is
    the keyed input, with the width and the height of the input. *)
Theorem bright_image_goes_through (img : image) :
  image_ok img -> pixels_ok img ->
  0 < width img -> 0 < height img ->
  (forall x y p, pixel_at img x y = Some p -> (60 <= magnitude p)%R) ->
  extract img = Some (key_image img) /\ solid (key_image img).
Proof.
  intros Hok Hpx Hw Hh Hbright.
  pose proof (bright_keyed_solid Hpx Hbright) as Hs.
  pose proof (key_image_ok Hok) as Hk.
  pose proof (key_image_size img) as [Hkw Hkh].
  split; [|exact Hs].
  unfold extract. cbv zeta.
  rewrite (@solid_crop_to_content (key_image img)) by (assumption || lia).
  rewrite solid_split_point by (assumption || lia).
  rewrite crop_rows_full by assumption.
  now rewrite (@solid_crop_to_content (key_image img)) by (assumption || lia).
Qed.

End SolidFacts.

(** ** The further properties at sample inputs *)

Section MoreWitnesses.
Import Keyer Raster Splitter Driver Pipeline SubImage Samples MoreSamples BoxSpec GapSpec.

Lemma pixel_at_in (img : image) (x y : nat) (p : pixel) :
  pixel_at img x y = Some p -> exists row, In row (rows img) /\ In p row.
Proof.
  unfold pixel_at. intros Hp.
  destruct (nth_error (rows img) y) as [row|] eqn:Hrow; [|discriminate].
  exists row. split; eapply nth_error_In; eauto.
Qed.

Lemma badge_ok : image_ok badge /\ pixels_ok badge.
Proof.
  split.
  - unfold image_ok. repeat constructor.
  - unfold pixels_ok, pixel_ok, u8. repeat constructor; simpl; lia.
Qed.

Lemma night_ok : image_ok night /\ pixels_ok night.
Proof.
  split.
  - unfold image_ok. repeat constructor.
  - unfold pixels_ok, pixel_ok, u8. repeat constructor; simpl; lia.
Qed.

Lemma night_dark (x y : nat) (p : pixel) :
  pixel_at night x y = Some p -> (magnitude p <= 20)%R.
Proof.
  intros Hp. apply pixel_at_in in Hp as (row & Hrow & Hp).
  apply repeat_spec in Hrow. subst row.
  destruct Hp as [<-|[]].
  apply (@magnitude_le_iff (mkPixel 3 4 0 255) 20 ltac:(lia)).
  vm_compute. discriminate.
Qed.

Lemma flag_ok : image_ok flag /\ pixels_ok flag.
Proof.
  split.
  - unfold image_ok. repeat constructor.
  - unfold pixels_ok, pixel_ok, u8. repeat constructor; simpl; lia.
Qed.

Lemma flag_bright (x y : nat) (p : pixel) :
  pixel_at flag x y = Some p -> (60 <= magnitude p)%R.
Proof.
  intros Hp. apply pixel_at_in in Hp as (row & Hrow & Hp).
  apply (@magnitude_ge_iff p 60 ltac:(lia)).
  simpl in Hrow.
  destruct Hrow as [<-|[<-|[]]]; simpl in Hp;
    destruct Hp as [<-|[<-|[]]]; vm_compute; discriminate.
Qed.

Example extract_badge : extract badge = Some (mkImage 1 [[mkPixel 200 0 0 255]]).
Proof. vm_compute. reflexivity. Qed.

Lemma key_alpha_opaque_iff_witness :
  alpha (key_pixel (mkPixel 200 100 0 7)) = 255%Z.
Proof.
  apply (@key_alpha_opaque_iff (mkPixel 200 100 0 7)).
  - unfold pixel_ok, u8; simpl; lia.
  - apply (@magnitude_ge_iff (mkPixel 200 100 0 7) 60 ltac:(lia)).
    vm_compute. discriminate.
Defined.

(** The colour (20, 2, 0) has magnitude above 20 and is still keyed to
    full transparency. *)
Lemma key_alpha_transparent_iff_witness :
  (20 < magnitude (mkPixel 20 2 0 255))%R /\
  alpha (key_pixel (mkPixel 20 2 0 255)) = 0%Z.
Proof.
  pose proof (magnitude_nonneg (mkPixel 20 2 0 255)) as H0.
  pose proof (magnitude_sqr (mkPixel 20 2 0 255)) as Hsq.
  change (sq_sum (mkPixel 20 2 0 255)) with 404%Z in Hsq.
  split; [nra|].
  apply (@key_alpha_transparent_iff (mkPixel 20 2 0 255)).
  - unfold pixel_ok, u8; simpl; lia.
  - nra.
Defined.

Lemma key_alpha_monotone_witness :
  (alpha (key_pixel red22) <= alpha (key_pixel red40))%Z.
Proof.
  destruct red22_facts as (Hok22 & Hm22 & _).
  destruct red40_facts as (Hok40 & Hm40 & _).
  apply (key_alpha_monotone Hok22 Hok40). rewrite Hm22, Hm40. lra.
Defined.

Lemma key_image_well_formed_witness :
  image_ok (key_image badge) /\ pixels_ok (key_image badge) /\
  width (key_image badge) = 3 /\ height (key_image badge) = 3.
Proof. exact (key_image_well_formed (proj1 badge_ok) (proj2 badge_ok)). Defined.

Lemma key_image_idempotent_witness :
  key_image (key_image flag) = key_image flag.
Proof. exact (proj1 (key_image_idempotent (proj2 flag_ok))). Defined.

Lemma split_point_reads_lower_half_witness :
  split_point profile_a = split_point profile_b.
Proof.
  apply split_point_reads_lower_half; [reflexivity|].
  intros y Hy. change (Z.of_nat (length profile_a)) with 12%Z in Hy.
  change (12 / 2)%Z with 6%Z in Hy.
  assert (Hcases : (y = 6 \/ y = 7 \/ y = 8 \/ y = 9 \/ y = 10 \/ y = 11)%Z) by lia.
  destruct Hcases as [->|[->|[->|[->|[->| ->]]]]]; reflexivity.
Defined.

Lemma split_point_cut_bounds_witness :
  (11 <= Z.of_nat (length profile_a) /\ 5 <= 6 /\
   6 + 6 <= Z.of_nat (length profile_a))%Z.
Proof.
  apply (@split_point_cut_bounds profile_a 6%Z); [reflexivity|].
  simpl. lia.
Defined.

Lemma coverage_bounds_witness :
  (0 <= coverage (row_sums badge) 1 <= 255 * 3)%Z.
Proof.
  exact (proj1 (@coverage_bounds badge 1%Z (proj1 badge_ok) (proj2 badge_ok))).
Defined.

Lemma extract_shows_keyed_input_witness :
  exists (out : image) (dx dy : nat),
    extract badge = Some out /\
    shows out (key_image badge) dx dy /\
    width out <= 3 /\ height out <= 3.
Proof. exact (extract_shows_keyed_input (proj1 badge_ok)). Defined.

Lemma extract_nonempty_witness :
  exists out : image,
    extract badge = Some out /\ 0 < width out /\ 0 < height out.
Proof.
  apply (extract_nonempty (proj1 badge_ok)); unfold height; simpl; lia.
Defined.

Lemma extract_is_tight_witness :
  image_ok (mkImage 1 [[mkPixel 200 0 0 255]]) /\
  (getbbox (mkImage 1 [[mkPixel 200 0 0 255]]) = None \/
   getbbox (mkImage 1 [[mkPixel 200 0 0 255]]) = Some (0, 0, 1, 1)).
Proof.
  exact (@extract_is_tight badge _ (proj1 badge_ok) extract_badge).
Defined.

Lemma dark_image_is_halved_witness :
  extract night = Some (crop_rows (key_image night) 6) /\
  width (crop_rows (key_image night) 6) = 1 /\
  height (crop_rows (key_image night) 6) = 6.
Proof.
  destruct (dark_image_is_halved (proj1 night_ok) (proj2 night_ok) night_dark)
    as [_ Htall].
  apply Htall. unfold height. simpl. lia.
Defined.

Lemma loaded_run_saves_extract_witness :
  exists out : image,
    extract badge = Some out /\
    process_logo_high_res
      (mkEnv (inr badge) (fun _ => None) (fun img _ => (Some img, None)))
      (mkWorld None [])
    = (mkWorld (Some out) [("Processed high-res logo to " ++ output_path)%string],
       inr tt).
Proof.
  exact (@loaded_run_saves_extract
           (mkEnv (inr badge) (fun _ => None) (fun img _ => (Some img, None)))
           (mkWorld None []) badge eq_refl (fun _ => eq_refl)).
Defined.

Lemma bright_image_goes_through_witness :
  extract flag = Some (key_image flag) /\ solid (key_image flag).
Proof.
  apply (bright_image_goes_through (proj1 flag_ok) (proj2 flag_ok));
    [simpl; lia|unfold height; simpl; lia|exact flag_bright].
Defined.

End MoreWitnesses.
